(** * devito/core/cpu.py: pass orchestration of the CPU operators

    A shallow embedding of [src/devito/core/cpu.py]: the option
    normalisation of the operator classes, their fixed cluster and IET
    pipelines, and the custom operator whose pipeline is assembled from a
    [mode] of pass names.

    The passes themselves ([devito.passes.clusters], [devito.passes.iet])
    are not part of the file: they are a parameter of the development (a
    pass library), and every theorem holds for every such library,
    including libraries whose passes raise. *)

From stdpp Require Import gmap strings list fin_maps.
From Stdlib Require Import ZArith.

Open Scope string_scope.
Open Scope list_scope.

(** ** Python values held by the [options] dictionary *)

#[warnings="-register-all"]
Inductive pyval :=
| PyNone
| PyBool (b : bool)
| PyInt (z : Z)
| PyStr (s : string)
| PyDict (d : gmap string pyval).

(** Python's truth value: [None], [False], [0], the empty string and the
    empty dict are falsy, everything else is truthy. *)
Definition truthy (v : pyval) : bool :=
  match v with
  | PyNone => false
  | PyBool b => b
  | PyInt z => negb (z =? 0)%Z
  | PyStr s => negb (String.eqb s "")
  | PyDict d => negb (bool_decide (d = ∅))
  end.

(** [a or b] *)
Definition py_or (a b : pyval) : pyval := if truthy a then a else b.

(** ** Exceptions and results *)

(** The two messages [InvalidOperator] is raised with in this file. *)
Inductive invalid_operator_msg :=
| Unknown_passes (passes : list string)
| Min_storage_with_advanced_fsg.

Inductive exn :=
| InvalidOperator (msg : invalid_operator_msg)
| KeyError (key : string)
| PassFailure (what : string).

Inductive Res (A : Type) :=
| Ok (a : A)
| Raise (e : exn).
Arguments Ok {A} a.
Arguments Raise {A} e.

Definition is_ok {A} (r : Res A) : bool :=
  match r with Ok _ => true | Raise _ => false end.

(** [d[k]]: a missing key raises [KeyError]. *)
Definition getitem (d : gmap string pyval) (k : string) : Res pyval :=
  match d !! k with
  | Some v => Ok v
  | None => Raise (KeyError k)
  end.

(** [d.get(k)]: a missing key gives [None]. *)
Definition dict_get (d : gmap string pyval) (k : string) : pyval :=
  default PyNone (d !! k).

(** [d.pop(k)]: the value and the dict without the key; a missing key
    raises [KeyError]. *)
Definition dict_pop (d : gmap string pyval) (k : string)
  : Res (pyval * gmap string pyval) :=
  match d !! k with
  | Some v => Ok (v, delete k d)
  | None => Raise (KeyError k)
  end.

Definition res_bind {A B} (r : Res A) (f : A -> Res B) : Res B :=
  match r with
  | Ok a => f a
  | Raise e => Raise e
  end.

(** ** Keyword arguments of a build *)

Record Platform := { simd_reg_size : Z }.

(** [mode] is the tuple [as_tuple(kwargs['mode'])]. *)
Record Kwargs := {
  mode : list string;
  options : gmap string pyval;
  platform : Platform
}.

Definition with_options (kw : Kwargs) (o : gmap string pyval) : Kwargs :=
  {| mode := mode kw; options := o; platform := platform kw |}.

(** ** [CPU64NoopOperator]: class constants and [_normalize_kwargs] *)

Definition BLOCK_LEVELS : pyval := PyInt 1.
Definition CIRE_REPEATS_INV : pyval := PyInt 1.
Definition CIRE_REPEATS_SOPS : pyval := PyInt 5.
Definition CIRE_MINCOST_INV : pyval := PyInt 50.
Definition CIRE_MINCOST_SOPS : pyval := PyInt 10.

(** The dict literal [{'invariants': a, 'sops': b}]. *)
Definition by_category (inv sops : pyval) : pyval :=
  PyDict (<["sops" := sops]> (<["invariants" := inv]> ∅)).

Definition normalize_options (o : gmap string pyval)
  : Res (gmap string pyval) :=
  res_bind (getitem o "blocklevels") (fun bl =>
  let o := <["blocklevels" := py_or bl BLOCK_LEVELS]> o in
  res_bind (dict_pop o "cire-repeats-inv") (fun '(ri, o) =>
  res_bind (dict_pop o "cire-repeats-sops") (fun '(rs, o) =>
  let o := <["cire-repeats" :=
               by_category (py_or ri CIRE_REPEATS_INV)
                           (py_or rs CIRE_REPEATS_SOPS)]> o in
  res_bind (dict_pop o "cire-mincost-inv") (fun '(mi, o) =>
  res_bind (dict_pop o "cire-mincost-sops") (fun '(ms, o) =>
  let o := <["cire-mincost" :=
               by_category (py_or mi CIRE_MINCOST_INV)
                           (py_or ms CIRE_MINCOST_SOPS)]> o in
  Ok o))))).

Definition CPU64Noop_normalize_kwargs (kw : Kwargs) : Res Kwargs :=
  res_bind (normalize_options (options kw)) (fun o => Ok (with_options kw o)).

(** ** [Intel64FSGOperator._normalize_kwargs] *)

Definition Intel64FSG_normalize_kwargs (kw : Kwargs) : Res Kwargs :=
  res_bind (CPU64Noop_normalize_kwargs kw) (fun kw =>
  if truthy (dict_get (options kw) "min-storage")
  then Raise (InvalidOperator Min_storage_with_advanced_fsg)
  else Ok kw).

(** ** Passes, events and the state of a build *)

Inductive category := invariants | sops.

(** The calls into [devito.passes.clusters], with the arguments the
    source gives them apart from the clusters and the symbol registry. *)
Inductive cluster_pass :=
| fuse (toposort : bool)
| cire (c : category) (opts : gmap string pyval) (p : Platform)
| Lift_process
| Blocking_process (opts : gmap string pyval)
| extract_increments
| factorize
| optimize_pows
| cse
| eliminate_arrays.

(** The calls into [devito.passes.iet], with the arguments the source
    gives them apart from the graph and the symbol registry. *)
Inductive iet_pass :=
| avoid_denormals
| optimize_halospots
| mpiize (mpi_mode : pyval)
| relax_incr_dimensions
| make_simd (reg_size : Z)
| make_parallel
| hoist_prodders
| place_definitions
| place_casts.

Inductive event :=
| ClusterPass (p : cluster_pass)
| IetPass (p : iet_pass).

Definition is_blocking (e : event) : bool :=
  match e with
  | ClusterPass (Blocking_process _) => true
  | _ => false
  end.

Definition is_placement (e : event) : bool :=
  match e with
  | IetPass place_definitions | IetPass place_casts => true
  | _ => false
  end.

(** ** The pass library

    Everything a pass can change lives in [World]: the symbol registry,
    the IET a graph refers to, anything else. A cluster pass returns new
    clusters or raises; an IET pass changes the graph in place (inside
    the world) and returns nothing, or raises, possibly after it has
    changed part of the graph. The constructors [Blocking(options)],
    [Lift()], [Ompizer(sregistry)] and [DataManager(sregistry)] only
    store their arguments; the decorator [timed_pass] only measures
    time. *)
Class PassLibrary := {
  World : Type;
  Clusters : Type;
  Graph : Type;
  cluster_lib : cluster_pass -> Clusters -> World -> Res Clusters * World;
  iet_lib : iet_pass -> Graph -> World -> Res unit * World
}.

(** [called] lists the passes invoked so far, oldest first. *)
Record State `{PassLibrary} := { world : World; called : list event }.

Definition M `{PassLibrary} (A : Type) : Type := State -> Res A * State.

Definition ret `{PassLibrary} {A} (a : A) : M A := fun st => (Ok a, st).

Definition raise `{PassLibrary} {A} (e : exn) : M A :=
  fun st => (Raise e, st).

Definition bind `{PassLibrary} {A B} (m : M A) (f : A -> M B) : M B :=
  fun st =>
    match m st with
    | (Ok a, st') => f a st'
    | (Raise e, st') => (Raise e, st')
    end.

Definition lift `{PassLibrary} {A} (r : Res A) : M A := fun st => (r, st).

#[global] Instance M_ret `{PassLibrary} : MRet M := @ret _.
#[global] Instance M_bind `{PassLibrary} : MBind M :=
  fun A B f m => bind m f.

(** [try: body except KeyError: pass]; [dflt] is what the variable the
    body assigns keeps when the handler runs. *)
Definition try_except_KeyError `{PassLibrary} {A} (body : M A) (dflt : A)
  : M A :=
  fun st =>
    match body st with
    | (Raise (KeyError _), st') => (Ok dflt, st')
    | r => r
    end.

Definition call_cluster `{PassLibrary} (p : cluster_pass)
  (clusters : Clusters) : M Clusters :=
  fun st =>
    let '(r, w) := cluster_lib p clusters (world st) in
    (r, {| world := w; called := called st ++ [ClusterPass p] |}).

Definition call_iet `{PassLibrary} (p : iet_pass) (graph : Graph) : M unit :=
  fun st =>
    let '(r, w) := iet_lib p graph (world st) in
    (r, {| world := w; called := called st ++ [IetPass p] |}).

(** [if c: body] *)
Definition when `{PassLibrary} (c : bool) (body : M unit) : M unit :=
  if c then body else ret tt.

(** [DataManager(sregistry)], [place_definitions(graph)],
    [place_casts(graph)]. *)
Definition symbol_definitions `{PassLibrary} (graph : Graph) : M unit :=
  call_iet place_definitions graph;;
  call_iet place_casts graph.

(** ** [CPU64NoopOperator._specialize_iet] *)

Definition CPU64Noop_specialize_iet `{PassLibrary} (graph : Graph)
  (kw : Kwargs) : M Graph :=
  mpi ← lift (getitem (options kw) "mpi");
  when (truthy mpi) (call_iet (mpiize mpi) graph);;
  openmp ← lift (getitem (options kw) "openmp");
  when (truthy openmp) (call_iet make_parallel graph);;
  symbol_definitions graph;;
  mret graph.

(** ** [CPU64Operator] *)

Definition CPU64_specialize_clusters `{PassLibrary} (clusters : Clusters)
  (kw : Kwargs) : M Clusters :=
  let options := options kw in
  let platform := platform kw in
  clusters ← call_cluster (fuse true) clusters;
  clusters ← call_cluster (cire invariants options platform) clusters;
  clusters ← call_cluster Lift_process clusters;
  clusters ← call_cluster (Blocking_process options) clusters;
  clusters ← call_cluster extract_increments clusters;
  clusters ← call_cluster (cire sops options platform) clusters;
  clusters ← call_cluster factorize clusters;
  clusters ← call_cluster optimize_pows clusters;
  clusters ← call_cluster cse clusters;
  clusters ← call_cluster (fuse false) clusters;
  clusters ← call_cluster eliminate_arrays clusters;
  mret clusters.

Definition CPU64_specialize_iet `{PassLibrary} (graph : Graph)
  (kw : Kwargs) : M Graph :=
  call_iet avoid_denormals graph;;
  call_iet optimize_halospots graph;;
  mpi ← lift (getitem (options kw) "mpi");
  when (truthy mpi) (call_iet (mpiize mpi) graph);;
  call_iet relax_incr_dimensions graph;;
  call_iet (make_simd (simd_reg_size (platform kw))) graph;;
  call_iet hoist_prodders graph;;
  symbol_definitions graph;;
  mret graph.

(** ** [CPU64OpenMPOperator._specialize_iet] *)

Definition CPU64OpenMP_specialize_iet `{PassLibrary} (graph : Graph)
  (kw : Kwargs) : M Graph :=
  call_iet avoid_denormals graph;;
  call_iet optimize_halospots graph;;
  mpi ← lift (getitem (options kw) "mpi");
  when (truthy mpi) (call_iet (mpiize mpi) graph);;
  call_iet relax_incr_dimensions graph;;
  call_iet (make_simd (simd_reg_size (platform kw))) graph;;
  call_iet make_parallel graph;;
  call_iet hoist_prodders graph;;
  symbol_definitions graph;;
  mret graph.

(** ** [Intel64FSGOperator._specialize_clusters] *)

Definition Intel64FSG_specialize_clusters `{PassLibrary}
  (clusters : Clusters) (kw : Kwargs) : M Clusters :=
  let options := options kw in
  let platform := platform kw in
  clusters ← call_cluster (fuse true) clusters;
  clusters ← call_cluster (cire invariants options platform) clusters;
  clusters ← call_cluster Lift_process clusters;
  clusters ← call_cluster extract_increments clusters;
  clusters ← call_cluster (cire sops options platform) clusters;
  clusters ← call_cluster factorize clusters;
  clusters ← call_cluster optimize_pows clusters;
  clusters ← call_cluster cse clusters;
  clusters ← call_cluster (fuse false) clusters;
  clusters ← call_cluster eliminate_arrays clusters;
  clusters ← call_cluster (Blocking_process options) clusters;
  mret clusters.

(** ** [CustomOperator] *)

Definition _known_passes : list string :=
  ["blocking"; "denormals"; "optcomms"; "openmp"; "mpi";
   "simd"; "prodders"; "topofuse"; "fuse"; "factorize";
   "cire-sops"; "cse"; "lift"; "opt-pows"].

(** The dict literals below have no key twice, so the order in which
    [list_to_map] inserts them does not matter. *)
Definition _make_clusters_passes_mapper `{PassLibrary} (kw : Kwargs)
  : gmap string (Clusters -> M Clusters) :=
  let options := options kw in
  let platform := platform kw in
  list_to_map [
    ("blocking", call_cluster (Blocking_process options));
    ("factorize", call_cluster factorize);
    ("fuse", call_cluster (fuse false));
    ("lift", fun i =>
       i ← call_cluster (cire invariants options platform) i;
       call_cluster Lift_process i);
    ("cire-sops", call_cluster (cire sops options platform));
    ("cse", call_cluster cse);
    ("opt-pows", call_cluster optimize_pows);
    ("topofuse", call_cluster (fuse true))
  ].

(** The dict [_make_iet_passes_mapper] returns, [mpi] being the value
    of [options['mpi']]. *)
Definition iet_passes_dict `{PassLibrary} (kw : Kwargs) (mpi : pyval)
  : gmap string (Graph -> M unit) :=
  list_to_map [
    ("denormals", call_iet avoid_denormals);
    ("optcomms", call_iet optimize_halospots);
    ("blocking", call_iet relax_incr_dimensions);
    ("openmp", call_iet make_parallel);
    ("mpi", call_iet (mpiize mpi));
    ("simd", call_iet (make_simd (simd_reg_size (platform kw))));
    ("prodders", call_iet hoist_prodders)
  ].

(** Building the dict evaluates [options['mpi']], which raises when the
    key is missing. *)
Definition _make_iet_passes_mapper `{PassLibrary} (kw : Kwargs)
  : M (gmap string (Graph -> M unit)) :=
  mpi ← lift (getitem (options kw) "mpi");
  mret (iet_passes_dict kw mpi).

(** [passes_mapper[i](x)]: the lookup raises [KeyError] on a missing
    key, otherwise the function found is called. *)
Definition mapper_call `{PassLibrary} {A B} (passes_mapper : gmap string (A -> M B))
  (i : string) (x : A) : M B :=
  match passes_mapper !! i with
  | Some f => f x
  | None => raise (KeyError i)
  end.

(** [any(i not in cls._known_passes for i in passes)] *)
Definition any_unknown (passes : list string) : bool :=
  existsb (fun i => negb (bool_decide (i ∈ _known_passes))) passes.

(** [CustomOperator._build]; [super_build] is the [_build] the class
    inherits from [OperatorCore], which is not part of this file. *)
Definition Custom_build `{PassLibrary} {Expr Op : Type}
  (super_build : Expr -> Kwargs -> M Op) (expressions : Expr) (kw : Kwargs)
  : M Op :=
  let passes := mode kw in
  if any_unknown passes
  then raise (InvalidOperator (Unknown_passes passes))
  else super_build expressions kw.

(** The loop of [CustomOperator._specialize_clusters]. *)
Fixpoint clusters_loop `{PassLibrary}
  (passes_mapper : gmap string (Clusters -> M Clusters))
  (passes : list string) (clusters : Clusters) : M Clusters :=
  match passes with
  | [] => mret clusters
  | i :: passes =>
      clusters ← try_except_KeyError
                   (mapper_call passes_mapper i clusters) clusters;
      clusters_loop passes_mapper passes clusters
  end.

Definition Custom_specialize_clusters `{PassLibrary} (clusters : Clusters)
  (kw : Kwargs) : M Clusters :=
  let passes := mode kw in
  let passes_mapper := _make_clusters_passes_mapper kw in
  clusters_loop passes_mapper passes clusters.

(** The loop of [CustomOperator._specialize_iet]. *)
Fixpoint iet_loop `{PassLibrary}
  (passes_mapper : gmap string (Graph -> M unit))
  (passes : list string) (graph : Graph) : M unit :=
  match passes with
  | [] => mret tt
  | i :: passes =>
      try_except_KeyError (mapper_call passes_mapper i graph) tt;;
      iet_loop passes_mapper passes graph
  end.

(** [if name not in passes and options[name]: passes_mapper[name](graph)];
    [and] does not look the option up when [name] is in [passes]. *)
Definition force_call `{PassLibrary} (name : string)
  (passes_mapper : gmap string (Graph -> M unit)) (kw : Kwargs)
  (graph : Graph) : M unit :=
  if bool_decide (name ∈ mode kw) then mret tt
  else
    opt ← lift (getitem (options kw) name);
    when (truthy opt) (mapper_call passes_mapper name graph).

Definition Custom_specialize_iet `{PassLibrary} (graph : Graph)
  (kw : Kwargs) : M Graph :=
  let passes := mode kw in
  passes_mapper ← _make_iet_passes_mapper kw;
  iet_loop passes_mapper passes graph;;
  force_call "mpi" passes_mapper kw graph;;
  force_call "openmp" passes_mapper kw graph;;
  symbol_definitions graph;;
  mret graph.

(** ** The class hierarchy *)

Inductive operator_class :=
| CPU64NoopOperator
| CPU64Operator
| CPU64OpenMPOperator
| Intel64FSGOperator
| Intel64FSGOpenMPOperator
| CustomOperator.

Definition Intel64Operator := CPU64Operator.
Definition Intel64OpenMPOperator := CPU64OpenMPOperator.
Definition PowerOperator := CPU64Operator.
Definition PowerOpenMPOperator := CPU64OpenMPOperator.
Definition ArmOperator := CPU64Operator.
Definition ArmOpenMPOperator := CPU64OpenMPOperator.

(** Method resolution: only the FSG classes override what
    [CPU64NoopOperator] defines. *)
Definition _normalize_kwargs (cls : operator_class) : Kwargs -> Res Kwargs :=
  match cls with
  | Intel64FSGOperator | Intel64FSGOpenMPOperator =>
      Intel64FSG_normalize_kwargs
  | _ => CPU64Noop_normalize_kwargs
  end.

(** [Intel64FSGOperator] inherits the IET stage of [CPU64Operator];
    [Intel64FSGOpenMPOperator] sets it to that of
    [CPU64OpenMPOperator]. *)
Definition _specialize_iet `{PassLibrary} (cls : operator_class)
  : Graph -> Kwargs -> M Graph :=
  match cls with
  | CPU64NoopOperator => CPU64Noop_specialize_iet
  | CPU64Operator | Intel64FSGOperator => CPU64_specialize_iet
  | CPU64OpenMPOperator | Intel64FSGOpenMPOperator =>
      CPU64OpenMP_specialize_iet
  | CustomOperator => Custom_specialize_iet
  end.

(** Modelled from the spec: [CPU64NoopOperator] inherits its cluster
    stage from [OperatorCore], which is not part of this file; the spec
    gives it no cluster optimisation, so the clusters come back as they
    are. The other classes are resolved as the source defines them. *)
Definition _specialize_clusters `{PassLibrary} (cls : operator_class)
  : Clusters -> Kwargs -> M Clusters :=
  match cls with
  | CPU64NoopOperator => fun clusters _ => mret clusters
  | CPU64Operator | CPU64OpenMPOperator => CPU64_specialize_clusters
  | Intel64FSGOperator | Intel64FSGOpenMPOperator =>
      Intel64FSG_specialize_clusters
  | CustomOperator => Custom_specialize_clusters
  end.

(** Modelled from the spec: the driver of a build belongs to
    [OperatorCore] and is not part of this file. The spec has it
    normalise the keyword arguments once, before any pass runs, and fail
    the build when normalisation fails; [build] stands for everything
    the driver does afterwards. *)
Definition operator_build `{PassLibrary} {Op : Type} (cls : operator_class)
  (build : Kwargs -> M Op) (kw : Kwargs) : M Op :=
  kw ← lift (_normalize_kwargs cls kw);
  build kw.

(** ** Concrete pass libraries, for running the embedding *)

Definition cluster_pass_name (p : cluster_pass) : string :=
  match p with
  | fuse true => "topofuse"
  | fuse false => "fuse"
  | cire invariants _ _ => "cire-invariants"
  | cire sops _ _ => "cire-sops"
  | Lift_process => "lift"
  | Blocking_process _ => "blocking"
  | extract_increments => "extract-increments"
  | factorize => "factorize"
  | optimize_pows => "opt-pows"
  | cse => "cse"
  | eliminate_arrays => "eliminate-arrays"
  end.

Definition iet_pass_name (p : iet_pass) : string :=
  match p with
  | avoid_denormals => "denormals"
  | optimize_halospots => "optcomms"
  | mpiize _ => "mpi"
  | relax_incr_dimensions => "relax-incr-dimensions"
  | make_simd _ => "simd"
  | make_parallel => "openmp"
  | hoist_prodders => "prodders"
  | place_definitions => "place-definitions"
  | place_casts => "place-casts"
  end.

(** Every pass succeeds: a cluster pass appends its name to the
    clusters, an IET pass appends its name to the world, which stands
    for the one graph. *)
Definition recording_lib : PassLibrary := {|
  World := list string;
  Clusters := list string;
  Graph := unit;
  cluster_lib p clusters w := (Ok (clusters ++ [cluster_pass_name p]), w);
  iet_lib p _ w := (Ok tt, (w ++ [iet_pass_name p]))
|}.

(** As [recording_lib], but [fuse] (without toposort) and
    [avoid_denormals] fail with a [KeyError] of their own, the latter
    after it has touched the graph. *)
Definition keyerror_lib : PassLibrary := {|
  World := list string;
  Clusters := list string;
  Graph := unit;
  cluster_lib p clusters w :=
    match p with
    | fuse false => (Raise (KeyError "internal"), w)
    | _ => (Ok (clusters ++ [cluster_pass_name p]), w)
    end;
  iet_lib p _ w :=
    match p with
    | avoid_denormals =>
        (Raise (KeyError "internal"), (w ++ ["denormals (partial)"]))
    | _ => (Ok tt, (w ++ [iet_pass_name p]))
    end
|}.

Definition initial `{PassLibrary} (w : World) : State :=
  {| world := w; called := [] |}.

(** Options as the caller of [_normalize_kwargs] fills them when the
    user sets nothing. *)
Definition default_options : gmap string pyval :=
  list_to_map [
    ("blocklevels", PyNone);
    ("cire-repeats-inv", PyNone);
    ("cire-repeats-sops", PyNone);
    ("cire-mincost-inv", PyNone);
    ("cire-mincost-sops", PyNone);
    ("min-storage", PyBool false);
    ("mpi", PyBool false);
    ("openmp", PyBool false)
  ].

Definition default_platform : Platform := {| simd_reg_size := 32 |}.

Definition kwargs_of (m : list string) (o : gmap string pyval) : Kwargs :=
  {| mode := m; options := o; platform := default_platform |}.

(** The five tunables [_normalize_kwargs] reads. *)
Definition tunables : list string :=
  ["blocklevels"; "cire-repeats-inv"; "cire-repeats-sops";
   "cire-mincost-inv"; "cire-mincost-sops"].

Definition tunables_present (o : gmap string pyval) : Prop :=
  ∀ k, k ∈ tunables → is_Some (o !! k).

(** [options[k1][k2]] *)
Definition getitem2 (o : gmap string pyval) (k1 k2 : string) : option pyval :=
  match o !! k1 with
  | Some (PyDict d) => d !! k2
  | _ => None
  end.

(** The dict [_normalize_kwargs] leaves behind, written out. *)
Definition normalized (o : gmap string pyval) (bl ri rs mi ms : pyval)
  : gmap string pyval :=
  <["cire-mincost" := by_category (py_or mi CIRE_MINCOST_INV)
                                  (py_or ms CIRE_MINCOST_SOPS)]>
  (delete "cire-mincost-sops" (delete "cire-mincost-inv"
  (<["cire-repeats" := by_category (py_or ri CIRE_REPEATS_INV)
                                   (py_or rs CIRE_REPEATS_SOPS)]>
  (delete "cire-repeats-sops" (delete "cire-repeats-inv"
  (<["blocklevels" := py_or bl BLOCK_LEVELS]> o)))))).

(** ** Vocabulary of the statements *)

(** Options in which the caller sets every tunable to a falsy value. *)
Definition zeroed_options : gmap string pyval :=
  <["blocklevels" := PyInt 0]> (<["cire-repeats-inv" := PyInt 0]>
  (<["cire-repeats-sops" := PyBool false]> (<["cire-mincost-inv" := PyInt 0]>
  (<["cire-mincost-sops" := PyStr ""]> default_options)))).

(** [emits m P]: from every state, [m] only appends to the list of
    calls, and its result [r] and the calls [l] it appends satisfy
    [P r l]. *)
Definition emits `{PassLibrary} {A} (m : M A)
  (P : Res A → list event → Prop) : Prop :=
  ∀ st, ∃ l, called (m st).2 = called st ++ l ∧ P (m st).1 l.

(** The pipeline executor of the spec: the passes of a list are called
    in order, each on the clusters the one before returned. *)
Fixpoint run_cluster_pipeline `{PassLibrary} (ps : list cluster_pass)
  (clusters : Clusters) : M Clusters :=
  match ps with
  | [] => mret clusters
  | p :: ps =>
      clusters ← call_cluster p clusters;
      run_cluster_pipeline ps clusters
  end.

(** The cluster pipeline the spec's strategy table gives for Base:
    topological fusion, invariant hoist and lift, blocking, increment
    extraction, sum-of-products hoist, factorization, power
    optimization, CSE, fusion, dead-array elimination. *)
Definition spec_Base_cluster_pipeline (kw : Kwargs) : list cluster_pass :=
  [fuse true; cire invariants (options kw) (platform kw); Lift_process;
   Blocking_process (options kw);
   extract_increments; cire sops (options kw) (platform kw); factorize;
   optimize_pows; cse; fuse false; eliminate_arrays].

(** The cluster pipeline the spec's strategy table gives for FSG: as
    Base, with blocking last. *)
Definition spec_FSG_cluster_pipeline (kw : Kwargs) : list cluster_pass :=
  [fuse true; cire invariants (options kw) (platform kw); Lift_process;
   extract_increments; cire sops (options kw) (platform kw); factorize;
   optimize_pows; cse; fuse false; eliminate_arrays;
   Blocking_process (options kw)].

(** Calls other than the two of symbol placement. *)
Definition no_placement (l : list event) : Prop :=
  Forall (λ e, is_placement e = false) l.

(** The calls [l] of a run are calls other than placement, followed by
    [place_definitions] and [place_casts] and nothing else; a run that
    raises may stop short, inside or before the placement, and a run
    that returns has made both calls. *)
Definition placement_last {A} (r : Res A) (l : list event) : Prop :=
  ∃ pre post,
    l = pre ++ post ∧
    no_placement pre ∧
    (∃ n, post = take n [IetPass place_definitions; IetPass place_casts]) ∧
    (is_ok r = true →
     post = [IetPass place_definitions; IetPass place_casts]).

(** A computation that calls no placement pass. *)
Definition calls_no_placement `{PassLibrary} {A} (m : M A) : Prop :=
  emits m (λ _ l, no_placement l).

(** Every function of the mapper calls passes other than placement. *)
Definition mapper_no_placement `{PassLibrary} {A B} (pm : gmap string (A → M B)) : Prop :=
  ∀ i f, pm !! i = Some f → ∀ x, calls_no_placement (f x).

(** What a token of [mode] calls in the cluster stage, and in the IET
    stage once [options['mpi']] has been read as [mpi]; a token not
    listed calls nothing. *)
Definition clusters_stage_calls (kw : Kwargs) : gmap string (list event) :=
  list_to_map [
    ("blocking", [ClusterPass (Blocking_process (options kw))]);
    ("factorize", [ClusterPass factorize]);
    ("fuse", [ClusterPass (fuse false)]);
    ("lift", [ClusterPass (cire invariants (options kw) (platform kw));
              ClusterPass Lift_process]);
    ("cire-sops", [ClusterPass (cire sops (options kw) (platform kw))]);
    ("cse", [ClusterPass cse]);
    ("opt-pows", [ClusterPass optimize_pows]);
    ("topofuse", [ClusterPass (fuse true)])
  ].

Definition iet_stage_calls (kw : Kwargs) (mpi : pyval)
  : gmap string (list event) :=
  list_to_map [
    ("denormals", [IetPass avoid_denormals]);
    ("optcomms", [IetPass optimize_halospots]);
    ("blocking", [IetPass relax_incr_dimensions]);
    ("openmp", [IetPass make_parallel]);
    ("mpi", [IetPass (mpiize mpi)]);
    ("simd", [IetPass (make_simd (simd_reg_size (platform kw)))]);
    ("prodders", [IetPass hoist_prodders])
  ].

(** The calls of a whole [mode], token by token in the order given. *)
Definition mode_calls (calls : gmap string (list event)) (passes : list string)
  : list event :=
  concat ((λ i, default [] (calls !! i)) <$> passes).

(** A library none of whose passes raises. *)
Definition passes_return (L : PassLibrary) : Prop :=
  (∀ p clusters w, is_ok (cluster_lib p clusters w).1 = true) ∧
  (∀ p graph w, is_ok (iet_lib p graph w).1 = true).

(** Every function of [pm] returns, having made the calls [calls]
    lists for its token. *)
Definition mapper_calls `{PassLibrary} {A B} (pm : gmap string (A → M B))
  (calls : gmap string (list event)) : Prop :=
  ∀ i, match pm !! i with
       | Some f => ∃ l, calls !! i = Some l ∧
                        ∀ x st, ∃ y st', f x st = (Ok y, st') ∧
                                         called st' = called st ++ l
       | None => calls !! i = None
       end.

(** The pipeline executor on a graph: the passes of a list are called
    in order on the one graph. *)
Fixpoint run_iet_pipeline `{PassLibrary} (ps : list iet_pass) (graph : Graph)
  : M unit :=
  match ps with
  | [] => mret tt
  | p :: ps => call_iet p graph;; run_iet_pipeline ps graph
  end.

(** A pass is forced when its name is not in [mode] and its option is
    truthy. *)
Definition forced (name : string) (kw : Kwargs) (opt : pyval) : bool :=
  negb (bool_decide (name ∈ mode kw)) && truthy opt.

(** The calls the custom IET stage makes once the tokens are done. *)
Definition forced_passes (kw : Kwargs) (mpi openmp : pyval) : list iet_pass :=
  (if forced "mpi" kw mpi then [mpiize mpi] else []) ++
  (if forced "openmp" kw openmp then [make_parallel] else []).

(** The two calls of the symbol definitions. *)
Definition symbol_placement : list iet_pass := [place_definitions; place_casts].

(** The keys of the dict of [_make_clusters_passes_mapper]. *)
Definition clusters_stage_tokens : list string :=
  ["blocking"; "factorize"; "fuse"; "lift"; "cire-sops"; "cse"; "opt-pows";
   "topofuse"].

(** The keys of the dict of [_make_iet_passes_mapper]. *)
Definition iet_stage_tokens : list string :=
  ["denormals"; "optcomms"; "blocking"; "openmp"; "mpi"; "simd"; "prodders"].

(** ** Vocabulary of the further statements *)

(** The keyword arguments with another [mode]. *)
Definition with_mode (kw : Kwargs) (m : list string) : Kwargs :=
  {| mode := m; options := options kw; platform := platform kw |}.

(** The key is not in the dict. *)
Definition missing (o : gmap string pyval) (k : string) : bool :=
  match o !! k with
  | Some _ => false
  | None => true
  end.

(** The first tunable, in the order [_normalize_kwargs] reads them, that
    the options do not hold. *)
Definition first_missing (o : gmap string pyval) : option string :=
  find (missing o) tunables.

(** The calls of the three fixed IET stages, [mpi] and [openmp] being
    the values of the options of these names. *)
Definition Noop_iet_passes (mpi openmp : pyval) : list iet_pass :=
  (if truthy mpi then [mpiize mpi] else []) ++
  (if truthy openmp then [make_parallel] else []) ++
  symbol_placement.

Definition Base_iet_passes (kw : Kwargs) (mpi : pyval) : list iet_pass :=
  [avoid_denormals; optimize_halospots] ++
  (if truthy mpi then [mpiize mpi] else []) ++
  [relax_incr_dimensions; make_simd (simd_reg_size (platform kw));
   hoist_prodders] ++
  symbol_placement.

Definition OpenMP_iet_passes (kw : Kwargs) (mpi : pyval) : list iet_pass :=
  [avoid_denormals; optimize_halospots] ++
  (if truthy mpi then [mpiize mpi] else []) ++
  [relax_incr_dimensions; make_simd (simd_reg_size (platform kw));
   make_parallel; hoist_prodders] ++
  symbol_placement.

Definition is_make_parallel (e : event) : bool :=
  match e with
  | IetPass make_parallel => true
  | _ => false
  end.

(** A computation all of whose calls satisfy [P]. *)
Definition calls_only `{PassLibrary} {A} (P : event → Prop) (m : M A) : Prop :=
  emits m (λ _ l, Forall P l).

(** The cluster passes that have a token in the custom vocabulary. *)
Definition has_token (e : event) : Prop :=
  match e with
  | ClusterPass extract_increments | ClusterPass eliminate_arrays => False
  | ClusterPass _ => True
  | IetPass _ => False
  end.

(** As [recording_lib], but [cse] fails with an exception that is not a
    [KeyError]. *)
Definition failing_lib : PassLibrary := {|
  World := list string;
  Clusters := list string;
  Graph := unit;
  cluster_lib p clusters w :=
    match p with
    | cse => (Raise (PassFailure "cse"), w)
    | _ => (Ok (clusters ++ [cluster_pass_name p]), w)
    end;
  iet_lib p _ w := (Ok tt, w ++ [iet_pass_name p])
|}.

(** The IET pass of the token 'blocking'. *)
Definition is_relax_incr_dimensions (e : event) : bool :=
  match e with
  | IetPass relax_incr_dimensions => true
  | _ => false
  end.

(** The calls the custom IET stage can make once its loop is over. *)
Definition forced_or_placement (e : event) : Prop :=
  match e with
  | IetPass (mpiize _) | IetPass make_parallel
  | IetPass place_definitions | IetPass place_casts => True
  | _ => False
  end.

(** How often a token occurs in a mode. *)
Definition occurrences (tok : string) (passes : list string) : nat :=
  length (filter (λ i, i = tok) passes).

(** How many of the calls satisfy [P]. *)
Definition count_calls (P : event → bool) (l : list event) : nat :=
  length (filter (λ e, P e = true) l).

(** * Properties *)

(** ** Normalisation *)

Lemma py_or_truthy (v d : pyval) : truthy v = true → py_or v d = v.
Proof. unfold py_or. by intros ->. Qed.

Lemma py_or_falsy (v d : pyval) : truthy v = false → py_or v d = d.
Proof. unfold py_or. by intros ->. Qed.

Lemma py_or_is_truthy (v d : pyval) :
  truthy d = true → truthy (py_or v d) = true.
Proof. unfold py_or. by destruct (truthy v) eqn:E. Qed.

Lemma normalize_options_eq (o : gmap string pyval) (bl ri rs mi ms : pyval) :
  o !! "blocklevels" = Some bl →
  o !! "cire-repeats-inv" = Some ri →
  o !! "cire-repeats-sops" = Some rs →
  o !! "cire-mincost-inv" = Some mi →
  o !! "cire-mincost-sops" = Some ms →
  normalize_options o = Ok (normalized o bl ri rs mi ms).
Proof.
  intros Hbl Hri Hrs Hmi Hms.
  unfold normalize_options, getitem, dict_pop.
  rewrite Hbl. simpl.
  by simplify_map_eq.
Qed.

Lemma tunables_present_lookups (o : gmap string pyval) :
  tunables_present o →
  ∃ bl ri rs mi ms,
    o !! "blocklevels" = Some bl ∧
    o !! "cire-repeats-inv" = Some ri ∧
    o !! "cire-repeats-sops" = Some rs ∧
    o !! "cire-mincost-inv" = Some mi ∧
    o !! "cire-mincost-sops" = Some ms.
Proof.
  intros H.
  destruct (H "blocklevels") as [bl ?]; [set_solver|].
  destruct (H "cire-repeats-inv") as [ri ?]; [set_solver|].
  destruct (H "cire-repeats-sops") as [rs ?]; [set_solver|].
  destruct (H "cire-mincost-inv") as [mi ?]; [set_solver|].
  destruct (H "cire-mincost-sops") as [ms ?]; [set_solver|].
  by exists bl, ri, rs, mi, ms.
Qed.

(** A key [_normalize_kwargs] neither reads as a tunable nor writes
    keeps its value. *)
Lemma normalized_other (o : gmap string pyval) (bl ri rs mi ms : pyval)
  (k : string) :
  k ∉ tunables → k ≠ "cire-repeats" → k ≠ "cire-mincost" →
  normalized o bl ri rs mi ms !! k = o !! k.
Proof.
  intros Hk H1 H2. unfold normalized, tunables in *.
  repeat (apply not_elem_of_cons in Hk as [? Hk]).
  rewrite lookup_insert_ne by done.
  rewrite !lookup_delete_ne by done.
  rewrite lookup_insert_ne by done.
  rewrite !lookup_delete_ne by done.
  by rewrite lookup_insert_ne by done.
Qed.

Lemma normalized_min_storage (o : gmap string pyval) (bl ri rs mi ms : pyval) :
  dict_get (normalized o bl ri rs mi ms) "min-storage"
  = dict_get o "min-storage".
Proof.
  unfold dict_get. rewrite normalized_other; [done| |done|done].
  unfold tunables. rewrite !not_elem_of_cons.
  split_and!; try done. apply not_elem_of_nil.
Qed.

Lemma normalized_lookups (o : gmap string pyval) (bl ri rs mi ms : pyval) :
  let o' := normalized o bl ri rs mi ms in
  o' !! "blocklevels" = Some (py_or bl (PyInt 1)) ∧
  getitem2 o' "cire-repeats" "invariants" = Some (py_or ri (PyInt 1)) ∧
  getitem2 o' "cire-repeats" "sops" = Some (py_or rs (PyInt 5)) ∧
  getitem2 o' "cire-mincost" "invariants" = Some (py_or mi (PyInt 50)) ∧
  getitem2 o' "cire-mincost" "sops" = Some (py_or ms (PyInt 10)).
Proof.
  unfold getitem2, normalized, by_category. simpl.
  split_and!; by simplify_map_eq.
Qed.

Lemma CPU64Noop_normalize_kwargs_eq (kw : Kwargs) (bl ri rs mi ms : pyval) :
  options kw !! "blocklevels" = Some bl →
  options kw !! "cire-repeats-inv" = Some ri →
  options kw !! "cire-repeats-sops" = Some rs →
  options kw !! "cire-mincost-inv" = Some mi →
  options kw !! "cire-mincost-sops" = Some ms →
  CPU64Noop_normalize_kwargs kw
  = Ok (with_options kw (normalized (options kw) bl ri rs mi ms)).
Proof.
  intros Hbl Hri Hrs Hmi Hms. unfold CPU64Noop_normalize_kwargs.
  by rewrite (normalize_options_eq _ _ _ _ _ _ Hbl Hri Hrs Hmi Hms).
Qed.

(** A missing tunable makes normalisation raise [KeyError]: the keys
    have to be there, if only with value [None]. *)
Lemma normalize_options_missing_blocklevels (o : gmap string pyval) :
  o !! "blocklevels" = None →
  normalize_options o = Raise (KeyError "blocklevels").
Proof. intros H. unfold normalize_options, getitem. by rewrite H. Qed.

(** C7: with the five tunables present in [options] (unset meaning
    [None]), normalisation succeeds for every class but for the FSG
    check, and the options it leaves have: [blocklevels] equal to the
    caller's value, or to 1 when that is unset; [cire-repeats] keyed by
    category with defaults 1 for 'invariants' and 5 for 'sops';
    [cire-mincost] with defaults 50 and 10; the four scalar keys gone;
    every other key as it was. *)
Theorem normalize_kwargs_consolidates (kw : Kwargs) (bl ri rs mi ms : pyval) :
  options kw !! "blocklevels" = Some bl →
  options kw !! "cire-repeats-inv" = Some ri →
  options kw !! "cire-repeats-sops" = Some rs →
  options kw !! "cire-mincost-inv" = Some mi →
  options kw !! "cire-mincost-sops" = Some ms →
  ∃ o',
    CPU64Noop_normalize_kwargs kw = Ok (with_options kw o') ∧
    (∀ cls kw', _normalize_kwargs cls kw = Ok kw' → kw' = with_options kw o') ∧
    (∀ cls, cls ≠ Intel64FSGOperator → cls ≠ Intel64FSGOpenMPOperator →
            _normalize_kwargs cls kw = Ok (with_options kw o')) ∧
    o' !! "blocklevels" = Some (py_or bl (PyInt 1)) ∧
    (bl = PyNone → o' !! "blocklevels" = Some (PyInt 1)) ∧
    (truthy bl = true → o' !! "blocklevels" = Some bl) ∧
    getitem2 o' "cire-repeats" "invariants" = Some (py_or ri (PyInt 1)) ∧
    getitem2 o' "cire-repeats" "sops" = Some (py_or rs (PyInt 5)) ∧
    getitem2 o' "cire-mincost" "invariants" = Some (py_or mi (PyInt 50)) ∧
    getitem2 o' "cire-mincost" "sops" = Some (py_or ms (PyInt 10)) ∧
    (∀ k, k ∈ ["cire-repeats-inv"; "cire-repeats-sops";
               "cire-mincost-inv"; "cire-mincost-sops"] → o' !! k = None) ∧
    (∀ k, k ∉ tunables → k ≠ "cire-repeats" → k ≠ "cire-mincost" →
          o' !! k = options kw !! k).
Proof.
  intros Hbl Hri Hrs Hmi Hms.
  pose proof (CPU64Noop_normalize_kwargs_eq kw _ _ _ _ _
                Hbl Hri Hrs Hmi Hms) as EN.
  destruct (normalized_lookups (options kw) bl ri rs mi ms)
    as (Hb & RI & RS & MI & MS).
  exists (normalized (options kw) bl ri rs mi ms).
  split_and!.
  - done.
  - intros cls kw' H. destruct cls; simpl in H;
      unfold Intel64FSG_normalize_kwargs in H; rewrite EN in H; simpl in H;
      try (by inversion H).
    all: destruct (truthy _); by inversion H.
  - intros cls H1 H2. by destruct cls.
  - done.
  - intros ->. by rewrite Hb.
  - intros T. by rewrite Hb, py_or_truthy.
  - done.
  - done.
  - done.
  - done.
  - intros k Hk. unfold normalized.
    repeat (apply elem_of_cons in Hk as [->|Hk]); [by simplify_map_eq..|].
    by apply elem_of_nil in Hk.
  - intros k. apply normalized_other.
Qed.

Lemma normalize_kwargs_consolidates_witness :
  ∃ o',
    CPU64Noop_normalize_kwargs
      (kwargs_of [] (<["blocklevels" := PyInt 2]> default_options))
    = Ok (with_options
            (kwargs_of [] (<["blocklevels" := PyInt 2]> default_options)) o') ∧
    o' !! "blocklevels" = Some (PyInt 2) ∧
    getitem2 o' "cire-repeats" "sops" = Some (PyInt 5).
Proof.
  destruct (normalize_kwargs_consolidates
              (kwargs_of [] (<["blocklevels" := PyInt 2]> default_options))
              (PyInt 2) PyNone PyNone PyNone PyNone)
    as (o' & H1 & _ & _ & H2 & _ & _ & _ & H3 & _);
    [reflexivity..|].
  exists o'. split_and!; done.
Defined.

(** C9: a falsy value of a tunable (0, False, None, ...) is replaced by
    the class default, not only an unset one: [blocklevels] becomes 1,
    the repeats 1 and 5, the minimum costs 50 and 10. Whatever the
    caller gives, the normalised value of each tunable is truthy, so
    none of them can be set to zero. *)
Theorem falsy_tunables_become_defaults (kw : Kwargs) (bl ri rs mi ms : pyval) :
  options kw !! "blocklevels" = Some bl →
  options kw !! "cire-repeats-inv" = Some ri →
  options kw !! "cire-repeats-sops" = Some rs →
  options kw !! "cire-mincost-inv" = Some mi →
  options kw !! "cire-mincost-sops" = Some ms →
  ∃ o',
    CPU64Noop_normalize_kwargs kw = Ok (with_options kw o') ∧
    (truthy bl = false → o' !! "blocklevels" = Some (PyInt 1)) ∧
    (truthy ri = false →
       getitem2 o' "cire-repeats" "invariants" = Some (PyInt 1)) ∧
    (truthy rs = false → getitem2 o' "cire-repeats" "sops" = Some (PyInt 5)) ∧
    (truthy mi = false →
       getitem2 o' "cire-mincost" "invariants" = Some (PyInt 50)) ∧
    (truthy ms = false → getitem2 o' "cire-mincost" "sops" = Some (PyInt 10)) ∧
    (∀ v, o' !! "blocklevels" = Some v
          ∨ getitem2 o' "cire-repeats" "invariants" = Some v
          ∨ getitem2 o' "cire-repeats" "sops" = Some v
          ∨ getitem2 o' "cire-mincost" "invariants" = Some v
          ∨ getitem2 o' "cire-mincost" "sops" = Some v →
          truthy v = true ∧ v ≠ PyInt 0).
Proof.
  intros Hbl Hri Hrs Hmi Hms.
  pose proof (CPU64Noop_normalize_kwargs_eq kw _ _ _ _ _
                Hbl Hri Hrs Hmi Hms) as E.
  destruct (normalized_lookups (options kw) bl ri rs mi ms)
    as (B & RI & RS & MI & MS).
  exists (normalized (options kw) bl ri rs mi ms). split_and!; try done.
  - intros F. by rewrite B, py_or_falsy.
  - intros F. by rewrite RI, py_or_falsy.
  - intros F. by rewrite RS, py_or_falsy.
  - intros F. by rewrite MI, py_or_falsy.
  - intros F. by rewrite MS, py_or_falsy.
  - intros v H.
    assert (T : truthy v = true).
    { destruct H as [H|[H|[H|[H|H]]]];
        [rewrite B in H|rewrite RI in H|rewrite RS in H
        |rewrite MI in H|rewrite MS in H];
        injection H as <-; by apply py_or_is_truthy. }
    split; [done|]. intros ->. discriminate T.
Qed.

Lemma falsy_tunables_become_defaults_witness :
  ∃ o',
    CPU64Noop_normalize_kwargs (kwargs_of [] zeroed_options)
    = Ok (with_options (kwargs_of [] zeroed_options) o') ∧
    o' !! "blocklevels" = Some (PyInt 1) ∧
    getitem2 o' "cire-repeats" "invariants" = Some (PyInt 1) ∧
    getitem2 o' "cire-repeats" "sops" = Some (PyInt 5) ∧
    getitem2 o' "cire-mincost" "invariants" = Some (PyInt 50) ∧
    getitem2 o' "cire-mincost" "sops" = Some (PyInt 10).
Proof.
  destruct (falsy_tunables_become_defaults (kwargs_of [] zeroed_options)
              (PyInt 0) (PyInt 0) (PyBool false) (PyInt 0) (PyStr ""))
    as (o' & E & B & RI & RS & MI & MS & _); [reflexivity..|].
  exists o'. split_and!; [done|by apply B|by apply RI|by apply RS
                         |by apply MI|by apply MS].
Defined.

(** ** The FSG check *)

Lemma FSG_normalize_kwargs_eq (kw : Kwargs) :
  tunables_present (options kw) →
  ∃ o',
    CPU64Noop_normalize_kwargs kw = Ok (with_options kw o') ∧
    Intel64FSG_normalize_kwargs kw
    = (if truthy (dict_get (options kw) "min-storage")
       then Raise (InvalidOperator Min_storage_with_advanced_fsg)
       else Ok (with_options kw o')).
Proof.
  intros (bl & ri & rs & mi & ms & Hbl & Hri & Hrs & Hmi & Hms)
    %tunables_present_lookups.
  exists (normalized (options kw) bl ri rs mi ms).
  unfold Intel64FSG_normalize_kwargs, CPU64Noop_normalize_kwargs.
  rewrite (normalize_options_eq _ _ _ _ _ _ Hbl Hri Hrs Hmi Hms). simpl.
  by rewrite normalized_min_storage.
Qed.

(** C2: in a build of an FSG class whose options hold the five
    tunables, a truthy [min-storage] makes normalisation raise
    [InvalidOperator], and the build fails there, with no pass called
    and the world untouched, whatever the rest of the build would do;
    with [min-storage] missing or falsy, the FSG normalisation
    succeeds, with the result of the inherited normalisation. *)
Theorem FSG_rejects_min_storage (kw : Kwargs) :
  tunables_present (options kw) →
  (truthy (dict_get (options kw) "min-storage") = true →
     Intel64FSG_normalize_kwargs kw
     = Raise (InvalidOperator Min_storage_with_advanced_fsg) ∧
     ∀ (L : PassLibrary) (Op : Type) (cls : operator_class)
       (build : Kwargs → M Op) (st : State),
       cls = Intel64FSGOperator ∨ cls = Intel64FSGOpenMPOperator →
       operator_build cls build kw st
       = (Raise (InvalidOperator Min_storage_with_advanced_fsg), st)) ∧
  (truthy (dict_get (options kw) "min-storage") = false →
     ∃ kw', Intel64FSG_normalize_kwargs kw = Ok kw' ∧
            CPU64Noop_normalize_kwargs kw = Ok kw' ∧
            ∀ (L : PassLibrary) (Op : Type) (cls : operator_class)
              (build : Kwargs → M Op) (st : State),
              cls = Intel64FSGOperator ∨ cls = Intel64FSGOpenMPOperator →
              operator_build cls build kw st = build kw' st).
Proof.
  intros (o' & EN & EF)%FSG_normalize_kwargs_eq. split.
  - intros T. rewrite T in EF. split; [done|].
    intros L Op cls build st [-> | ->];
      unfold operator_build; simpl; unfold mbind, M_bind, bind, lift;
      by rewrite EF.
  - intros F. rewrite F in EF. exists (with_options kw o').
    split_and!; [done..|].
    intros L Op cls build st [-> | ->];
      unfold operator_build; simpl; unfold mbind, M_bind, bind, lift;
      by rewrite EF.
Qed.

Ltac tunables_are_present :=
  let k := fresh "k" in
  let Hk := fresh "Hk" in
  intros k Hk; unfold tunables in Hk;
  repeat (apply elem_of_cons in Hk as [->|Hk]); [by eexists..|];
  by apply elem_of_nil in Hk.

Lemma FSG_rejects_min_storage_witness :
  Intel64FSG_normalize_kwargs
    (kwargs_of [] (<["min-storage" := PyBool true]> default_options))
  = Raise (InvalidOperator Min_storage_with_advanced_fsg) ∧
  is_ok (Intel64FSG_normalize_kwargs (kwargs_of [] default_options)) = true.
Proof.
  split.
  - apply (FSG_rejects_min_storage
             (kwargs_of [] (<["min-storage" := PyBool true]> default_options))).
    + tunables_are_present.
    + reflexivity.
  - destruct (FSG_rejects_min_storage
                (kwargs_of [] (<["min-storage" := PyBool false]> default_options)))
      as [_ H].
    + tunables_are_present.
    + destruct H as (kw' & E & _); [reflexivity|].
      change (<["min-storage" := PyBool false]> default_options)
        with default_options in E.
      by rewrite E.
Defined.

(** ** What a computation calls *)

Section Emits.
Context `{L : PassLibrary}.

Lemma emits_conseq {A} (m : M A) (P Q : Res A → list event → Prop) :
  emits m P → (∀ r l, P r l → Q r l) → emits m Q.
Proof. intros H HPQ st. destruct (H st) as (l & E & HP). eauto. Qed.

Lemma emits_ret {A} (a : A) (P : Res A → list event → Prop) :
  P (Ok a) [] → emits (mret a) P.
Proof. intros HP st. exists []. simpl. by rewrite app_nil_r. Qed.

Lemma emits_raise {A} (e : exn) (P : Res A → list event → Prop) :
  P (Raise e) [] → emits (raise e) P.
Proof. intros HP st. exists []. simpl. by rewrite app_nil_r. Qed.

Lemma emits_lift {A} (r : Res A) (P : Res A → list event → Prop) :
  P r [] → emits (lift r) P.
Proof. intros HP st. exists []. simpl. by rewrite app_nil_r. Qed.

Lemma emits_call_cluster (p : cluster_pass) (clusters : Clusters)
  (P : Res Clusters → list event → Prop) :
  (∀ r, P r [ClusterPass p]) → emits (call_cluster p clusters) P.
Proof.
  intros HP st. exists [ClusterPass p]. unfold call_cluster.
  by destruct (cluster_lib p clusters (world st)).
Qed.

Lemma emits_call_iet (p : iet_pass) (graph : Graph)
  (P : Res unit → list event → Prop) :
  (∀ r, P r [IetPass p]) → emits (call_iet p graph) P.
Proof.
  intros HP st. exists [IetPass p]. unfold call_iet.
  by destruct (iet_lib p graph (world st)).
Qed.

Lemma emits_bind {A B} (m : M A) (f : A → M B)
  (Q : Res A → list event → Prop) (P : Res B → list event → Prop) :
  emits m Q →
  (∀ e l, Q (Raise e) l → P (Raise e) l) →
  (∀ a l, Q (Ok a) l → emits (f a) (λ r l', P r (l ++ l'))) →
  emits (m ≫= f) P.
Proof.
  intros Hm He Hf st. unfold mbind, M_bind, bind.
  destruct (Hm st) as (l & E & HQ).
  destruct (m st) as [[a|e] st1]; simpl in *.
  - destruct (Hf a l HQ st1) as (l' & E' & HP).
    exists (l ++ l'). by rewrite E', E, app_assoc.
  - exists l. eauto.
Qed.

Lemma emits_try_except_KeyError {A} (body : M A) (dflt : A)
  (Q P : Res A → list event → Prop) :
  emits body Q →
  (∀ k l, Q (Raise (KeyError k)) l → P (Ok dflt) l) →
  (∀ r l, Q r l → (∀ k, r ≠ Raise (KeyError k)) → P r l) →
  emits (try_except_KeyError body dflt) P.
Proof.
  intros Hb Hk Hr st. unfold try_except_KeyError.
  destruct (Hb st) as (l & E & HQ). exists l.
  destruct (body st) as [[a|[]] st1]; simpl in *; split; eauto;
    apply Hr; congruence.
Qed.

Lemma emits_when (c : bool) (body : M unit)
  (P : Res unit → list event → Prop) :
  (c = true → emits body P) → (c = false → P (Ok tt) []) →
  emits (when c body) P.
Proof.
  destruct c; simpl; intros H1 H2; [by apply H1|].
  by apply emits_ret, H2.
Qed.

End Emits.

(** ** The vocabulary check *)

Lemma any_unknown_true (passes : list string) :
  any_unknown passes = true ↔ ∃ i, i ∈ passes ∧ i ∉ _known_passes.
Proof.
  unfold any_unknown. induction passes as [|i passes IH]; simpl.
  - split; [done|]. intros (i & Hi & _). by apply elem_of_nil in Hi.
  - rewrite orb_true_iff, IH, negb_true_iff, bool_decide_eq_false.
    split.
    + intros [H|(j & Hj & Hn)]; [exists i|exists j];
        split; try done; by constructor.
    + intros (j & Hj & Hn). apply elem_of_cons in Hj as [->|Hj]; eauto.
Qed.

(** C1: when [mode] holds a token outside the vocabulary, [_build]
    raises [InvalidOperator] and hands the state back as it got it: the
    inherited build, and with it every cluster and IET pass, is never
    entered, so the list of calls and the world stay as they were. *)
Theorem Custom_build_unknown_pass `{L : PassLibrary} {Expr Op : Type}
  (super_build : Expr → Kwargs → M Op) (expressions : Expr) (kw : Kwargs)
  (st : State) :
  (∃ i, i ∈ mode kw ∧ i ∉ _known_passes) →
  Custom_build super_build expressions kw st
  = (Raise (InvalidOperator (Unknown_passes (mode kw))), st).
Proof.
  intros H%any_unknown_true. unfold Custom_build. by rewrite H.
Qed.

(** With every token in the vocabulary the check passes and the
    inherited build runs. *)
Lemma Custom_build_known `{L : PassLibrary} {Expr Op : Type}
  (super_build : Expr → Kwargs → M Op) (expressions : Expr) (kw : Kwargs) :
  (∀ i, i ∈ mode kw → i ∈ _known_passes) →
  Custom_build super_build expressions kw = super_build expressions kw.
Proof.
  intros H. unfold Custom_build.
  destruct (any_unknown (mode kw)) eqn:E; [|done].
  apply any_unknown_true in E as (i & Hi & Hn). destruct Hn. by apply H.
Qed.

(** The same through the driver: normalisation calls no pass and
    leaves [mode] alone, so a build of the custom operator with an
    unknown token ends in [InvalidOperator] with nothing called. *)
Lemma Custom_operator_build_unknown_pass `{L : PassLibrary} {Expr Op : Type}
  (super_build : Expr → Kwargs → M Op) (expressions : Expr) (kw : Kwargs)
  (st : State) :
  tunables_present (options kw) →
  (∃ i, i ∈ mode kw ∧ i ∉ _known_passes) →
  operator_build CustomOperator (Custom_build super_build expressions) kw st
  = (Raise (InvalidOperator (Unknown_passes (mode kw))), st).
Proof.
  intros (bl & ri & rs & mi & ms & Hbl & Hri & Hrs & Hmi & Hms)
    %tunables_present_lookups Hu.
  unfold operator_build. simpl.
  unfold mbind, M_bind, bind, lift, CPU64Noop_normalize_kwargs.
  rewrite (normalize_options_eq _ _ _ _ _ _ Hbl Hri Hrs Hmi Hms). simpl.
  apply any_unknown_true in Hu. unfold Custom_build. simpl. by rewrite Hu.
Qed.

Lemma Custom_build_unknown_pass_witness :
  @Custom_build recording_lib unit (list string)
    (λ _ kw, @Custom_specialize_clusters recording_lib [] kw) tt
    (kwargs_of ["cse"; "bogus"] default_options) (@initial recording_lib [])
  = (Raise (InvalidOperator (Unknown_passes ["cse"; "bogus"])), @initial recording_lib []).
Proof.
  apply (@Custom_build_unknown_pass recording_lib unit (list string)).
  exists "bogus". split.
  - simpl. apply elem_of_cons. right. by apply elem_of_cons; left.
  - by apply (bool_decide_unpack (_ ∉ _)).
Defined.

(** ** The fixed cluster pipelines *)

Lemma run_cluster_pipeline_emits `{L : PassLibrary} (ps : list cluster_pass)
  (clusters : Clusters) :
  emits (run_cluster_pipeline ps clusters)
    (λ r l, (∃ n, l = ClusterPass <$> take n ps) ∧
            (is_ok r = true → l = ClusterPass <$> ps)).
Proof.
  revert clusters. induction ps as [|p ps IH]; intros clusters; simpl.
  - apply emits_ret. split; [by exists 0|done].
  - eapply emits_bind.
    + apply emits_call_cluster with (P := λ _ l, l = [ClusterPass p]).
      done.
    + intros e l ->. split; [by exists 1|done].
    + intros a l ->. eapply emits_conseq; [apply IH|].
      intros r l [[n ->] Hok]. split.
      * by exists (S n).
      * intros H. by rewrite Hok.
Qed.

Lemma run_cluster_pipeline_ok `{L : PassLibrary} (ps : list cluster_pass)
  (clusters clusters' : Clusters) (st st' : State) :
  run_cluster_pipeline ps clusters st = (Ok clusters', st') →
  called st' = called st ++ (ClusterPass <$> ps).
Proof.
  intros E.
  destruct (run_cluster_pipeline_emits ps clusters st) as (l & El & _ & Hok).
  rewrite E in El, Hok. simpl in *. by rewrite El, Hok.
Qed.

Lemma CPU64_specialize_clusters_pipeline `{L : PassLibrary}
  (clusters : Clusters) (kw : Kwargs) :
  CPU64_specialize_clusters clusters kw
  = run_cluster_pipeline (spec_Base_cluster_pipeline kw) clusters.
Proof. reflexivity. Qed.

Lemma Intel64FSG_specialize_clusters_pipeline `{L : PassLibrary}
  (clusters : Clusters) (kw : Kwargs) :
  Intel64FSG_specialize_clusters clusters kw
  = run_cluster_pipeline (spec_FSG_cluster_pipeline kw) clusters.
Proof. reflexivity. Qed.

(** C8: a run of the Base cluster stage and a run of the FSG cluster
    stage that both return call the passes [tb] and [tf] with: the same
    passes in the same order once blocking is left out; blocking called
    once in each; in FSG last, right after dead-array elimination; in
    Base right before increment extraction, sum-of-products CIRE,
    factorization and power optimization. *)
Theorem FSG_defers_blocking `{L : PassLibrary} (kw : Kwargs)
  (cb cb' cf cf' : Clusters) (sb sb' sf sf' : State) :
  CPU64_specialize_clusters cb kw sb = (Ok cb', sb') →
  Intel64FSG_specialize_clusters cf kw sf = (Ok cf', sf') →
  ∃ tb tf,
    called sb' = called sb ++ tb ∧
    called sf' = called sf ++ tf ∧
    tb = ClusterPass <$> spec_Base_cluster_pipeline kw ∧
    tf = ClusterPass <$> spec_FSG_cluster_pipeline kw ∧
    filter (λ e, is_blocking e = false) tf
    = filter (λ e, is_blocking e = false) tb ∧
    filter (λ e, is_blocking e = true) tb
    = [ClusterPass (Blocking_process (options kw))] ∧
    filter (λ e, is_blocking e = true) tf
    = [ClusterPass (Blocking_process (options kw))] ∧
    (∃ pre, tf = pre ++ [ClusterPass eliminate_arrays;
                         ClusterPass (Blocking_process (options kw))]) ∧
    (∃ pre post,
       tb = pre ++ [ClusterPass (Blocking_process (options kw));
                    ClusterPass extract_increments;
                    ClusterPass (cire sops (options kw) (platform kw));
                    ClusterPass factorize;
                    ClusterPass optimize_pows] ++ post ∧
       tf = pre ++ [ClusterPass extract_increments;
                    ClusterPass (cire sops (options kw) (platform kw));
                    ClusterPass factorize;
                    ClusterPass optimize_pows] ++ post
            ++ [ClusterPass (Blocking_process (options kw))]).
Proof.
  rewrite CPU64_specialize_clusters_pipeline,
    Intel64FSG_specialize_clusters_pipeline.
  intros Hb%run_cluster_pipeline_ok Hf%run_cluster_pipeline_ok.
  eexists _, _. split_and!; [exact Hb|exact Hf|reflexivity..| |].
  - eexists [_; _; _; _; _; _; _; _; _]. reflexivity.
  - eexists [_; _; _], [_; _; _]. split; reflexivity.
Qed.

Lemma FSG_defers_blocking_witness :
  ∃ tb tf,
    tb = ClusterPass <$> spec_Base_cluster_pipeline (kwargs_of [] default_options) ∧
    tf = ClusterPass <$> spec_FSG_cluster_pipeline (kwargs_of [] default_options) ∧
    filter (λ e, is_blocking e = false) tf
    = filter (λ e, is_blocking e = false) tb.
Proof.
  destruct (@FSG_defers_blocking recording_lib
              (kwargs_of [] default_options) [] _ [] _
              (@initial recording_lib []) _ (@initial recording_lib []) _ eq_refl eq_refl)
    as (tb & tf & _ & _ & Eb & Ef & H & _).
  by exists tb, tf.
Defined.

(** ** Symbol placement comes last *)

Section Placement.
Context `{L : PassLibrary}.

Lemma cnp_ret {A} (a : A) : calls_no_placement (mret a).
Proof. apply emits_ret. constructor. Qed.

Lemma cnp_lift {A} (r : Res A) : calls_no_placement (lift r).
Proof. apply emits_lift. constructor. Qed.

Lemma cnp_raise {A} (e : exn) : calls_no_placement (raise (A := A) e).
Proof. apply emits_raise. constructor. Qed.

Lemma cnp_call_iet (p : iet_pass) (graph : Graph) :
  is_placement (IetPass p) = false → calls_no_placement (call_iet p graph).
Proof. intros H. apply emits_call_iet. intros _. by repeat constructor. Qed.

Lemma cnp_bind {A B} (m : M A) (f : A → M B) :
  calls_no_placement m → (∀ a, calls_no_placement (f a)) →
  calls_no_placement (m ≫= f).
Proof.
  intros Hm Hf. eapply emits_bind; [exact Hm|done|].
  intros a l Hl. eapply emits_conseq; [apply Hf|].
  intros r l' Hl'. by apply Forall_app.
Qed.

Lemma cnp_when (c : bool) (body : M unit) :
  calls_no_placement body → calls_no_placement (when c body).
Proof. intros H. destruct c; [done|apply cnp_ret]. Qed.

Lemma cnp_try_except_KeyError {A} (body : M A) (dflt : A) :
  calls_no_placement body →
  calls_no_placement (try_except_KeyError body dflt).
Proof. intros H. eapply emits_try_except_KeyError; [exact H|done..]. Qed.

Lemma cnp_mapper_call {A B} (pm : gmap string (A → M B)) (i : string) (x : A) :
  mapper_no_placement pm → calls_no_placement (mapper_call pm i x).
Proof.
  intros H. unfold mapper_call. destruct (pm !! i) as [f|] eqn:E.
  - by eapply H.
  - apply cnp_raise.
Qed.

Lemma cnp_iet_loop (pm : gmap string (Graph → M unit)) (passes : list string)
  (graph : Graph) :
  mapper_no_placement pm → calls_no_placement (iet_loop pm passes graph).
Proof.
  intros H. induction passes as [|i passes IH]; simpl.
  - apply cnp_ret.
  - apply cnp_bind; [|done].
    by apply cnp_try_except_KeyError, cnp_mapper_call.
Qed.

Lemma cnp_force_call (name : string) (pm : gmap string (Graph → M unit))
  (kw : Kwargs) (graph : Graph) :
  mapper_no_placement pm → calls_no_placement (force_call name pm kw graph).
Proof.
  intros H. unfold force_call. case_bool_decide; [apply cnp_ret|].
  apply cnp_bind; [apply cnp_lift|].
  intros opt. by apply cnp_when, cnp_mapper_call.
Qed.

(** The mapper of the IET stage, when it can be built, holds no
    placement pass; building it calls nothing. *)
Lemma make_iet_passes_mapper_emits (kw : Kwargs) :
  emits (_make_iet_passes_mapper kw)
    (λ r l, l = [] ∧ ∀ pm, r = Ok pm → mapper_no_placement pm).
Proof.
  unfold _make_iet_passes_mapper.
  eapply emits_bind;
    [apply emits_lift with (P := λ _ l, l = []); done|done|].
  intros mpi l ->. apply emits_ret. split; [done|].
  intros pm [= <-] i f Hf x. unfold iet_passes_dict in Hf. simpl in Hf.
  repeat (rewrite lookup_insert in Hf; case_decide;
          [injection Hf as <-; by apply cnp_call_iet|]).
  by rewrite lookup_empty in Hf.
Qed.

Lemma placement_last_symbol_definitions (graph : Graph) :
  emits (symbol_definitions graph;; mret graph) placement_last.
Proof.
  intros st. unfold symbol_definitions, mbind, M_bind, bind, call_iet.
  destruct (iet_lib place_definitions graph (world st)) as [[[]|e] w1];
    simpl.
  - destruct (iet_lib place_casts graph w1) as [[[]|e] w2]; simpl.
    + exists [IetPass place_definitions; IetPass place_casts].
      rewrite <- app_assoc. split; [done|].
      exists [], [IetPass place_definitions; IetPass place_casts].
      split_and!; [done|constructor|by exists 2|done].
    + exists [IetPass place_definitions; IetPass place_casts].
      rewrite <- app_assoc. split; [done|].
      exists [], [IetPass place_definitions; IetPass place_casts].
      split_and!; [done|constructor|by exists 2|done].
  - exists [IetPass place_definitions]. split; [done|].
    exists [], [IetPass place_definitions].
    split_and!; [done|constructor|by exists 1|done].
Qed.

Lemma placement_last_bind {A B} (m : M A) (f : A → M B) :
  calls_no_placement m → (∀ a, emits (f a) placement_last) →
  emits (m ≫= f) placement_last.
Proof.
  intros Hm Hf. eapply emits_bind; [exact Hm| |].
  - intros e l Hl. exists l, []. rewrite app_nil_r.
    split_and!; [done|done|by exists 0|done].
  - intros a l Hl. eapply emits_conseq; [apply Hf|].
    intros r l' (pre & post & -> & Hpre & Hn & Hok).
    exists (l ++ pre), post. rewrite app_assoc.
    split_and!; [done|by apply Forall_app|done|done].
Qed.

End Placement.

Ltac placement_steps :=
  repeat first
    [ apply placement_last_symbol_definitions
    | apply placement_last_bind;
      [ first [ apply cnp_call_iet; reflexivity
              | apply cnp_lift
              | apply cnp_when, cnp_call_iet; reflexivity ]
      | intros ? ] ].

(** C6: in the IET stage of every class (Noop, Base, OpenMP, FSG, FSG
    with OpenMP, Custom), whatever the options, the mode and the pass
    library, the calls of a run are calls of other passes followed by
    [place_definitions] then [place_casts], after which no pass is
    called; a run that returns has made these two calls. *)
Theorem symbol_placement_is_last `{L : PassLibrary} (cls : operator_class)
  (graph : Graph) (kw : Kwargs) :
  emits (_specialize_iet cls graph kw) placement_last.
Proof.
  destruct cls; simpl;
    [ unfold CPU64Noop_specialize_iet
    | unfold CPU64_specialize_iet
    | unfold CPU64OpenMP_specialize_iet
    | unfold CPU64_specialize_iet
    | unfold CPU64OpenMP_specialize_iet
    | ];
    try by placement_steps.
  unfold Custom_specialize_iet.
  eapply emits_bind; [apply make_iet_passes_mapper_emits| |].
  - intros e l [-> _]. exists [], [].
    split_and!; [done|constructor|by exists 0|done].
  - intros pm l [-> Hpm]. specialize (Hpm pm eq_refl). simpl.
    apply placement_last_bind; [by apply cnp_iet_loop|intros _].
    apply placement_last_bind; [by apply cnp_force_call|intros _].
    apply placement_last_bind; [by apply cnp_force_call|intros _].
    apply placement_last_symbol_definitions.
Qed.

(** ** The loops of the custom operator *)

Section Loops.
Context `{L : PassLibrary}.

Lemma clusters_loop_skip (pm : gmap string (Clusters → M Clusters))
  (i : string) (passes : list string) (clusters : Clusters) (st : State) :
  pm !! i = None →
  clusters_loop pm (i :: passes) clusters st
  = clusters_loop pm passes clusters st.
Proof.
  intros H. simpl.
  unfold mbind, M_bind, bind, try_except_KeyError, mapper_call.
  by rewrite H.
Qed.

Lemma clusters_loop_call (pm : gmap string (Clusters → M Clusters))
  (i : string) (f : Clusters → M Clusters) (passes : list string)
  (clusters clusters' : Clusters) (st st' : State) :
  pm !! i = Some f → f clusters st = (Ok clusters', st') →
  clusters_loop pm (i :: passes) clusters st
  = clusters_loop pm passes clusters' st'.
Proof.
  intros H E. simpl.
  unfold mbind, M_bind, bind, try_except_KeyError, mapper_call.
  by rewrite H, E.
Qed.

Lemma clusters_loop_app (pm : gmap string (Clusters → M Clusters))
  (p1 p2 : list string) (clusters : Clusters) (st : State) :
  clusters_loop pm (p1 ++ p2) clusters st
  = (clusters_loop pm p1 clusters ≫= clusters_loop pm p2) st.
Proof.
  revert clusters st. induction p1 as [|i p1 IH]; intros clusters st.
  - done.
  - simpl. unfold mbind, M_bind, bind in *.
    destruct (try_except_KeyError _ _ st) as [[c|e] st1]; [apply IH|done].
Qed.

Lemma iet_loop_skip (pm : gmap string (Graph → M unit))
  (i : string) (passes : list string) (graph : Graph) (st : State) :
  pm !! i = None →
  iet_loop pm (i :: passes) graph st = iet_loop pm passes graph st.
Proof.
  intros H. simpl.
  unfold mbind, M_bind, bind, try_except_KeyError, mapper_call.
  by rewrite H.
Qed.

Lemma iet_loop_call (pm : gmap string (Graph → M unit))
  (i : string) (f : Graph → M unit) (passes : list string)
  (graph : Graph) (st st' : State) :
  pm !! i = Some f → f graph st = (Ok tt, st') →
  iet_loop pm (i :: passes) graph st = iet_loop pm passes graph st'.
Proof.
  intros H E. simpl.
  unfold mbind, M_bind, bind, try_except_KeyError, mapper_call.
  by rewrite H, E.
Qed.

Lemma iet_loop_app (pm : gmap string (Graph → M unit))
  (p1 p2 : list string) (graph : Graph) (st : State) :
  iet_loop pm (p1 ++ p2) graph st
  = (iet_loop pm p1 graph;; iet_loop pm p2 graph) st.
Proof.
  revert st. induction p1 as [|i p1 IH]; intros st.
  - done.
  - simpl. unfold mbind, M_bind, bind in *.
    destruct (try_except_KeyError _ _ st) as [[c|e] st1]; [apply IH|done].
Qed.

(** An exception other than [KeyError] leaves the loops as it is. *)
Lemma clusters_loop_raise (pm : gmap string (Clusters → M Clusters))
  (i : string) (f : Clusters → M Clusters) (passes : list string)
  (clusters : Clusters) (st st' : State) (e : exn) :
  pm !! i = Some f → f clusters st = (Raise e, st') →
  (∀ k, e ≠ KeyError k) →
  clusters_loop pm (i :: passes) clusters st = (Raise e, st').
Proof.
  intros H E Hk. simpl.
  unfold mbind, M_bind, bind, try_except_KeyError, mapper_call.
  rewrite H, E. destruct e; try done. by destruct (Hk key).
Qed.

Lemma clusters_loop_calls (pm : gmap string (Clusters → M Clusters))
  (calls : gmap string (list event)) (passes : list string)
  (clusters : Clusters) (st : State) :
  mapper_calls pm calls →
  ∃ clusters' st',
    clusters_loop pm passes clusters st = (Ok clusters', st') ∧
    called st' = called st ++ mode_calls calls passes.
Proof.
  intros H. revert clusters st.
  induction passes as [|i passes IH]; intros clusters st.
  - exists clusters, st. by rewrite app_nil_r.
  - specialize (H i). destruct (pm !! i) as [f|] eqn:E.
    + destruct H as (l & El & Hf).
      destruct (Hf clusters st) as (c1 & st1 & E1 & C1).
      destruct (IH c1 st1) as (c2 & st2 & E2 & C2).
      exists c2, st2. rewrite (clusters_loop_call _ _ _ _ _ _ _ _ E E1).
      split; [done|]. unfold mode_calls in *. simpl.
      by rewrite C2, C1, El, app_assoc.
    + destruct (IH clusters st) as (c2 & st2 & E2 & C2).
      exists c2, st2. rewrite (clusters_loop_skip _ _ _ _ _ E).
      split; [done|]. unfold mode_calls in *. simpl. by rewrite H.
Qed.

Lemma iet_loop_calls (pm : gmap string (Graph → M unit))
  (calls : gmap string (list event)) (passes : list string)
  (graph : Graph) (st : State) :
  mapper_calls pm calls →
  ∃ st',
    iet_loop pm passes graph st = (Ok tt, st') ∧
    called st' = called st ++ mode_calls calls passes.
Proof.
  intros H. revert st.
  induction passes as [|i passes IH]; intros st.
  - exists st. by rewrite app_nil_r.
  - specialize (H i). destruct (pm !! i) as [f|] eqn:E.
    + destruct H as (l & El & Hf).
      destruct (Hf graph st) as ([] & st1 & E1 & C1).
      destruct (IH st1) as (st2 & E2 & C2).
      exists st2. rewrite (iet_loop_call _ _ _ _ _ _ _ E E1).
      split; [done|]. unfold mode_calls in *. simpl.
      by rewrite C2, C1, El, app_assoc.
    + destruct (IH st) as (st2 & E2 & C2).
      exists st2. rewrite (iet_loop_skip _ _ _ _ _ E).
      split; [done|]. unfold mode_calls in *. simpl. by rewrite H.
Qed.

Lemma call_cluster_returns (p : cluster_pass) (clusters : Clusters)
  (st : State) :
  passes_return L →
  ∃ y st', call_cluster p clusters st = (Ok y, st') ∧
           called st' = called st ++ [ClusterPass p].
Proof.
  intros [H _]. specialize (H p clusters (world st)). unfold call_cluster.
  destruct (cluster_lib p clusters (world st)) as [[y|e] w]; [|done].
  by eexists _, _.
Qed.

Lemma call_iet_returns (p : iet_pass) (graph : Graph) (st : State) :
  passes_return L →
  ∃ y st', call_iet p graph st = (Ok y, st') ∧
           called st' = called st ++ [IetPass p].
Proof.
  intros [_ H]. specialize (H p graph (world st)). unfold call_iet.
  destruct (iet_lib p graph (world st)) as [[y|e] w]; [|done].
  by eexists _, _.
Qed.

End Loops.

(** ** What the mappers call *)

Section Mappers.
Context `{L : PassLibrary}.

Lemma mapper_calls_empty {A B} : mapper_calls (∅ : gmap string (A → M B)) ∅.
Proof. intros i. by rewrite !lookup_empty. Qed.

Lemma mapper_calls_insert {A B} (k : string) (f : A → M B) (l : list event)
  (pm : gmap string (A → M B)) (calls : gmap string (list event)) :
  (∀ x st, ∃ y st', f x st = (Ok y, st') ∧ called st' = called st ++ l) →
  mapper_calls pm calls →
  mapper_calls (<[k := f]> pm) (<[k := l]> calls).
Proof.
  intros Hf H i. rewrite !lookup_insert. case_decide; [|apply H].
  by exists l.
Qed.

Lemma clusters_mapper_calls (kw : Kwargs) :
  passes_return L →
  mapper_calls (_make_clusters_passes_mapper kw) (clusters_stage_calls kw).
Proof.
  intros HR. unfold _make_clusters_passes_mapper, clusters_stage_calls.
  simpl.
  repeat (apply mapper_calls_insert;
          [try (intros x st; by apply call_cluster_returns)|]);
    [|apply mapper_calls_empty].
  intros x st. unfold mbind, M_bind, bind.
  destruct (call_cluster_returns
              (cire invariants (options kw) (platform kw)) x st HR)
    as (y & st1 & -> & C1).
  destruct (call_cluster_returns Lift_process y st1 HR)
    as (z & st2 & -> & C2).
  exists z, st2. split; [done|]. by rewrite C2, C1, <- app_assoc.
Qed.

Lemma iet_mapper_calls (kw : Kwargs) (mpi : pyval) :
  passes_return L →
  mapper_calls (iet_passes_dict kw mpi) (iet_stage_calls kw mpi).
Proof.
  intros HR. unfold iet_passes_dict, iet_stage_calls. simpl.
  repeat (apply mapper_calls_insert;
          [intros x st; by apply call_iet_returns|]).
  apply mapper_calls_empty.
Qed.

End Mappers.

(** The keys of the two mappers. *)

Lemma clusters_mapper_keys `{L : PassLibrary} (kw : Kwargs) (i : string) :
  is_Some (_make_clusters_passes_mapper kw !! i) ↔ i ∈ clusters_stage_tokens.
Proof.
  rewrite <- elem_of_dom. unfold _make_clusters_passes_mapper.
  rewrite dom_list_to_map_L, elem_of_list_to_set. done.
Qed.

Lemma iet_mapper_keys `{L : PassLibrary} (kw : Kwargs) (mpi : pyval)
  (i : string) :
  is_Some (iet_passes_dict kw mpi !! i) ↔ i ∈ iet_stage_tokens.
Proof.
  rewrite <- elem_of_dom. unfold iet_passes_dict.
  rewrite dom_list_to_map_L, elem_of_list_to_set. done.
Qed.

Lemma both_stages_blocking (i : string) :
  i ∈ clusters_stage_tokens ∧ i ∈ iet_stage_tokens ↔ i = "blocking".
Proof.
  unfold clusters_stage_tokens, iet_stage_tokens. split.
  - intros [Hc Hi].
    repeat (apply elem_of_cons in Hc as [->|Hc]); try done;
      try (by apply elem_of_nil in Hc);
      repeat (apply elem_of_cons in Hi as [Hi|Hi]; [discriminate Hi|]);
      by apply elem_of_nil in Hi.
  - intros ->. split; [by left|]. right. right. by left.
Qed.

Lemma known_pass_stage (i : string) :
  i ∈ _known_passes → i ∈ clusters_stage_tokens ∨ i ∈ iet_stage_tokens.
Proof.
  unfold _known_passes. intros Hi.
  repeat (apply elem_of_cons in Hi as [->|Hi];
          [first [left; by apply (bool_decide_unpack (_ ∈ _))
                 |right; by apply (bool_decide_unpack (_ ∈ _))]|]).
  by apply elem_of_nil in Hi.
Qed.

(** ** The forced calls of the custom IET stage *)

Section Forced.
Context `{L : PassLibrary}.

(** A run calls a prefix of the list, the whole list when it returns,
    and at least the first pass of a list that has one. *)
Lemma run_iet_pipeline_emits (ps : list iet_pass) (graph : Graph) :
  emits (run_iet_pipeline ps graph)
    (λ r l, (∃ n, l = IetPass <$> take n ps ∧ (ps ≠ [] → 0 < n)) ∧
            (is_ok r = true → l = IetPass <$> ps)).
Proof.
  induction ps as [|p ps IH]; simpl.
  - apply emits_ret. split; [by exists 0|done].
  - eapply emits_bind.
    + apply emits_call_iet with (P := λ _ l, l = [IetPass p]). done.
    + intros e l ->. split; [|done]. exists 1. split; [done|lia].
    + intros a l ->. eapply emits_conseq; [apply IH|].
      intros r l [(n & -> & _) Hok]. split.
      * exists (S n). split; [done|lia].
      * intros H. by rewrite Hok.
Qed.

Lemma run_iet_pipeline_app (ps qs : list iet_pass) (graph : Graph)
  (st : State) :
  run_iet_pipeline (ps ++ qs) graph st
  = (run_iet_pipeline ps graph;; run_iet_pipeline qs graph) st.
Proof.
  revert st. induction ps as [|p ps IH]; intros st; [done|].
  simpl. unfold mbind, M_bind, bind in *.
  destruct (call_iet p graph st) as [[[]|e] st1]; [apply IH|done].
Qed.

Lemma force_call_eq (name : string) (p : iet_pass) (kw : Kwargs)
  (mpi opt : pyval) (graph : Graph) (st : State) :
  iet_passes_dict kw mpi !! name = Some (call_iet p) →
  options kw !! name = Some opt →
  force_call name (iet_passes_dict kw mpi) kw graph st
  = run_iet_pipeline (if forced name kw opt then [p] else []) graph st.
Proof.
  intros Hp Ho. unfold force_call, forced, mapper_call, getitem.
  case_bool_decide; simpl; [done|].
  unfold mbind, M_bind, bind, lift, when. rewrite Ho, Hp.
  destruct (truthy opt); simpl; [|done].
  unfold mbind, M_bind, bind. by destruct (call_iet p graph st) as [[[]|e] st1].
Qed.

Lemma iet_passes_dict_mpi (kw : Kwargs) (mpi : pyval) :
  iet_passes_dict kw mpi !! "mpi" = Some (call_iet (mpiize mpi)).
Proof. unfold iet_passes_dict. simpl. by simplify_map_eq. Qed.

Lemma iet_passes_dict_openmp (kw : Kwargs) (mpi : pyval) :
  iet_passes_dict kw mpi !! "openmp" = Some (call_iet make_parallel).
Proof. unfold iet_passes_dict. simpl. by simplify_map_eq. Qed.

(** The custom IET stage, once the options hold [mpi] and [openmp]:
    the loop over [mode], the forced passes, symbol placement. *)
Lemma Custom_specialize_iet_eq (graph : Graph) (kw : Kwargs)
  (mpi openmp : pyval) (st : State) :
  options kw !! "mpi" = Some mpi →
  options kw !! "openmp" = Some openmp →
  Custom_specialize_iet graph kw st
  = (iet_loop (iet_passes_dict kw mpi) (mode kw) graph;;
     run_iet_pipeline (forced_passes kw mpi openmp ++ symbol_placement) graph;;
     mret graph) st.
Proof.
  intros Hm Ho. unfold Custom_specialize_iet, _make_iet_passes_mapper, getitem.
  unfold mbind at 1 2 3. unfold M_bind at 1 2 3. unfold bind at 1 2 3.
  unfold lift. rewrite Hm. simpl.
  unfold mbind, M_bind, bind.
  destruct (iet_loop _ _ graph st) as [[[]|e] st1]; [|done].
  rewrite (force_call_eq "mpi" (mpiize mpi) kw mpi mpi graph st1
             (iet_passes_dict_mpi kw mpi) Hm).
  unfold forced_passes. rewrite <- app_assoc.
  rewrite run_iet_pipeline_app. unfold mbind, M_bind, bind.
  destruct (run_iet_pipeline _ graph st1) as [[[]|e] st2]; [|done].
  rewrite (force_call_eq "openmp" make_parallel kw mpi openmp graph st2
             (iet_passes_dict_openmp kw mpi) Ho).
  rewrite run_iet_pipeline_app. unfold mbind, M_bind, bind.
  destruct (run_iet_pipeline _ graph st2) as [[[]|e] st3]; [|done].
  unfold symbol_placement, symbol_definitions. simpl.
  unfold mbind, M_bind, bind.
  destruct (call_iet place_definitions graph st3) as [[[]|e] st4]; [|done].
  by destruct (call_iet place_casts graph st4) as [[[]|e] st5].
Qed.

End Forced.

Lemma forced_true (name : string) (kw : Kwargs) (opt : pyval) :
  forced name kw opt = true ↔ (name ∉ mode kw) ∧ truthy opt = true.
Proof.
  unfold forced.
  by rewrite andb_true_iff, negb_true_iff, bool_decide_eq_false.
Qed.

Lemma forced_passes_mpiize (kw : Kwargs) (mpi openmp m : pyval) :
  mpiize m ∈ forced_passes kw mpi openmp ++ symbol_placement
  ↔ m = mpi ∧ forced "mpi" kw mpi = true.
Proof.
  unfold forced_passes, symbol_placement.
  destruct (forced "mpi" kw mpi), (forced "openmp" kw openmp); simpl;
    rewrite ?elem_of_cons, elem_of_nil; intuition congruence.
Qed.

Lemma forced_passes_make_parallel (kw : Kwargs) (mpi openmp : pyval) :
  make_parallel ∈ forced_passes kw mpi openmp ++ symbol_placement
  ↔ forced "openmp" kw openmp = true.
Proof.
  unfold forced_passes, symbol_placement.
  destruct (forced "mpi" kw mpi), (forced "openmp" kw openmp); simpl;
    rewrite ?elem_of_cons, elem_of_nil; intuition congruence.
Qed.

#[local] Instance IetPass_inj : Inj (=) (=) IetPass.
Proof. by intros p q [= ->]. Qed.

(** C3: in a run of the custom IET stage whose options hold [mpi] and
    [openmp], let [st1] be the state in which the loop over the tokens
    of [mode] ends. The calls [l] made from there on are, in this order,
    [mpiize] when the option [mpi] is truthy and 'mpi' is not in [mode],
    [make_parallel] when the option [openmp] is truthy and 'openmp' is
    not in [mode], and symbol placement: a prefix of that list in every
    run, the whole list in a run that returns, where [mpiize] is among
    them exactly under its condition and [make_parallel] exactly under
    its own. With an empty [mode], [mpiize] is called when [mpi] is
    truthy and is not when it is falsy, whether the run returns or
    not. *)
Theorem custom_forces_mpi_and_openmp `{L : PassLibrary} (graph : Graph)
  (kw : Kwargs) (mpi openmp : pyval) (st st1 : State) :
  options kw !! "mpi" = Some mpi →
  options kw !! "openmp" = Some openmp →
  iet_loop (iet_passes_dict kw mpi) (mode kw) graph st = (Ok tt, st1) →
  ∃ l,
    called (Custom_specialize_iet graph kw st).2 = called st1 ++ l ∧
    (∃ n, l = IetPass <$>
                take n (forced_passes kw mpi openmp ++ symbol_placement)) ∧
    (is_ok (Custom_specialize_iet graph kw st).1 = true →
       l = IetPass <$> (forced_passes kw mpi openmp ++ symbol_placement) ∧
       (IetPass (mpiize mpi) ∈ l ↔ ("mpi" ∉ mode kw) ∧ truthy mpi = true) ∧
       (IetPass make_parallel ∈ l
        ↔ ("openmp" ∉ mode kw) ∧ truthy openmp = true)) ∧
    (mode kw = [] → truthy mpi = false → ∀ m, IetPass (mpiize m) ∉ l) ∧
    (mode kw = [] → truthy mpi = true → IetPass (mpiize mpi) ∈ l).
Proof.
  intros Hm Ho Hloop.
  rewrite (Custom_specialize_iet_eq graph kw mpi openmp st Hm Ho).
  unfold mbind, M_bind, bind. rewrite Hloop.
  destruct (run_iet_pipeline_emits
              (forced_passes kw mpi openmp ++ symbol_placement) graph st1)
    as (l & El & (n & En & Hn) & Hok).
  assert (Hret : is_ok (run_iet_pipeline
                          (forced_passes kw mpi openmp ++ symbol_placement)
                          graph st1).1 = true →
                 l = IetPass <$>
                       (forced_passes kw mpi openmp ++ symbol_placement) ∧
                 (IetPass (mpiize mpi) ∈ l
                  ↔ ("mpi" ∉ mode kw) ∧ truthy mpi = true) ∧
                 (IetPass make_parallel ∈ l
                  ↔ ("openmp" ∉ mode kw) ∧ truthy openmp = true)).
  { intros ->%Hok. split_and!; [done|..].
    - rewrite (list_elem_of_fmap_inj IetPass), forced_passes_mpiize,
        forced_true. intuition.
    - by rewrite (list_elem_of_fmap_inj IetPass),
        forced_passes_make_parallel, forced_true. }
  assert (Hno : mode kw = [] → truthy mpi = false →
                ∀ m, IetPass (mpiize m) ∉ l).
  { intros _ F m Hin. subst l.
    apply (list_elem_of_fmap_inj_2 IetPass) in Hin.
    apply subseteq_take in Hin.
    apply forced_passes_mpiize in Hin as [-> [_ T]%forced_true].
    congruence. }
  assert (Hyes : mode kw = [] → truthy mpi = true → IetPass (mpiize mpi) ∈ l).
  { intros Hmode T. subst l.
    assert (F : forced "mpi" kw mpi = true).
    { apply forced_true. split; [|done]. rewrite Hmode.
      apply not_elem_of_nil. }
    unfold forced_passes in *. rewrite F in *. simpl in *.
    destruct n as [|n]; [by apply Nat.lt_irrefl in Hn|].
    simpl. by left. }
  destruct (run_iet_pipeline _ graph st1) as [[[]|e] st2]; simpl in *;
    exists l; split_and!; try done; by exists n.
Qed.

Lemma custom_forces_mpi_and_openmp_witness :
  ∃ l,
    called (@Custom_specialize_iet recording_lib tt
              (kwargs_of [] (<["mpi" := PyBool true]> default_options))
              (@initial recording_lib [])).2
    = l ∧
    IetPass (mpiize (PyBool true)) ∈ l.
Proof.
  destruct (@custom_forces_mpi_and_openmp recording_lib tt
              (kwargs_of [] (<["mpi" := PyBool true]> default_options))
              (PyBool true) (PyBool false)
              (@initial recording_lib []) (@initial recording_lib []))
    as (l & El & _ & _ & _ & Hyes); [reflexivity..|].
  exists l. split; [exact El|]. by apply Hyes.
Defined.

Lemma recording_lib_returns : passes_return recording_lib.
Proof. by split. Qed.

(** ** Exceptions raised inside a pass *)

(** In a fixed pipeline nothing is caught: the exception of the first
    pass that raises is the result, and no later pass is called. *)
Lemma run_cluster_pipeline_raise `{L : PassLibrary} (ps qs : list cluster_pass)
  (p : cluster_pass) (clusters clusters1 : Clusters) (st st1 : State)
  (e : exn) (w : World) :
  run_cluster_pipeline ps clusters st = (Ok clusters1, st1) →
  cluster_lib p clusters1 (world st1) = (Raise e, w) →
  run_cluster_pipeline (ps ++ p :: qs) clusters st
  = (Raise e, {| world := w; called := called st ++ (ClusterPass <$> ps)
                                       ++ [ClusterPass p] |}).
Proof.
  revert clusters st. induction ps as [|p' ps IH]; intros clusters st; simpl.
  - intros [= -> ->] E. unfold mbind, M_bind, bind, call_cluster.
    by rewrite E.
  - unfold mbind, M_bind, bind.
    destruct (call_cluster p' clusters st) as [[c|e'] st2] eqn:Ec; [|done].
    intros E1 E2. rewrite (IH _ _ E1 E2). do 2 f_equal.
    unfold call_cluster in Ec.
    destruct (cluster_lib p' clusters (world st)); injection Ec as _ <-.
    simpl. by rewrite <- app_assoc.
Qed.

(** C5 fails on the loops of the custom operator: [except KeyError]
    also catches a [KeyError] raised inside a pass. With a library whose
    [fuse] raises [KeyError], the cluster stage for the mode
    (fuse, cse) returns as a success the clusters without the fusion,
    and has gone on to call [cse]; the IET stage for the mode
    (denormals, simd), whose [avoid_denormals] raises [KeyError] after
    touching the graph, goes on with [make_simd] and the placement and
    returns the graph. The Base cluster stage, on the same library,
    lets the exception through and stops. *)
Theorem custom_loop_catches_pass_KeyError :
  @cluster_lib keyerror_lib (fuse false) ["start"] []
  = (Raise (KeyError "internal"), []) ∧
  @Custom_specialize_clusters keyerror_lib ["start"]
    (kwargs_of ["fuse"; "cse"] default_options) (@initial keyerror_lib [])
  = (Ok ["start"; "cse"],
     @Build_State keyerror_lib []
       [ClusterPass (fuse false); ClusterPass cse]) ∧
  @Custom_specialize_iet keyerror_lib tt
    (kwargs_of ["denormals"; "simd"] default_options)
    (@initial keyerror_lib [])
  = (Ok tt,
     @Build_State keyerror_lib
       ["denormals (partial)"; "simd"; "place-definitions"; "place-casts"]
       [IetPass avoid_denormals; IetPass (make_simd 32);
        IetPass place_definitions; IetPass place_casts]) ∧
  (@CPU64_specialize_clusters keyerror_lib ["start"]
     (kwargs_of [] default_options) (@initial keyerror_lib [])).1
  = Raise (KeyError "internal").
Proof. split_and!; reflexivity. Qed.

(** * Further properties *)

(** ** Normalisation: missing keys, a second run, keys it overwrites *)

Lemma first_missing_None (o : gmap string pyval) :
  first_missing o = None → tunables_present o.
Proof.
  unfold first_missing, tunables, missing. simpl. intros H k Hk.
  destruct (o !! "blocklevels") eqn:E1; [|done].
  destruct (o !! "cire-repeats-inv") eqn:E2; [|done].
  destruct (o !! "cire-repeats-sops") eqn:E3; [|done].
  destruct (o !! "cire-mincost-inv") eqn:E4; [|done].
  destruct (o !! "cire-mincost-sops") eqn:E5; [|done].
  repeat (apply elem_of_cons in Hk as [->|Hk]; [by eexists|]).
  by apply elem_of_nil in Hk.
Qed.

Lemma normalize_options_cases (o : gmap string pyval) :
  match first_missing o with
  | Some k => normalize_options o = Raise (KeyError k)
  | None => is_ok (normalize_options o) = true
  end.
Proof.
  unfold first_missing, tunables, missing. simpl.
  unfold normalize_options, getitem, dict_pop.
  destruct (o !! "blocklevels") as [bl|] eqn:Hbl; simpl; [|done].
  destruct (o !! "cire-repeats-inv") as [ri|] eqn:Hri; simpl;
    [|by simplify_map_eq].
  destruct (o !! "cire-repeats-sops") as [rs|] eqn:Hrs; simpl;
    [|by simplify_map_eq].
  destruct (o !! "cire-mincost-inv") as [mi|] eqn:Hmi; simpl;
    [|by simplify_map_eq].
  destruct (o !! "cire-mincost-sops") as [ms|] eqn:Hms; simpl;
    by simplify_map_eq.
Qed.

Lemma first_missing_Some (o : gmap string pyval) (k : string) :
  first_missing o = Some k → k ∈ tunables ∧ o !! k = None.
Proof.
  unfold first_missing. intros [Hin Hm]%find_some. split.
  - by apply list_elem_of_In.
  - unfold missing in Hm. by destruct (o !! k).
Qed.

(** X1: normalisation reads the tunables in the order [blocklevels],
    [cire-repeats-inv], [cire-repeats-sops], [cire-mincost-inv],
    [cire-mincost-sops]: it raises [KeyError] for the first of them the
    options do not hold, and it returns exactly when they hold all
    five. *)
Theorem normalize_options_first_missing (o : gmap string pyval) :
  (∀ k, first_missing o = Some k →
        normalize_options o = Raise (KeyError k) ∧
        k ∈ tunables ∧ o !! k = None) ∧
  (is_ok (normalize_options o) = true ↔ tunables_present o).
Proof.
  pose proof (normalize_options_cases o) as H. split.
  - intros k E. rewrite E in H. split; [done|].
    by apply first_missing_Some.
  - split.
    + intros Hok. destruct (first_missing o) as [k|] eqn:E.
      * rewrite H in Hok. discriminate Hok.
      * by apply first_missing_None.
    + intros (bl & ri & rs & mi & ms & Hbl & Hri & Hrs & Hmi & Hms)
        %tunables_present_lookups.
      by rewrite (normalize_options_eq _ _ _ _ _ _ Hbl Hri Hrs Hmi Hms).
Qed.

(** X2: the FSG normalisation runs the inherited one first, so a
    missing tunable gives its [KeyError] even when [min-storage] is
    truthy; with the five tunables there, the outcome is
    [InvalidOperator] for a truthy [min-storage] and the inherited
    result otherwise. *)
Theorem FSG_normalize_kwargs_cases (kw : Kwargs) :
  match first_missing (options kw) with
  | Some k => Intel64FSG_normalize_kwargs kw = Raise (KeyError k)
  | None =>
      Intel64FSG_normalize_kwargs kw
      = (if truthy (dict_get (options kw) "min-storage")
         then Raise (InvalidOperator Min_storage_with_advanced_fsg)
         else CPU64Noop_normalize_kwargs kw)
  end.
Proof.
  pose proof (normalize_options_cases (options kw)) as H.
  destruct (first_missing (options kw)) as [k|] eqn:E.
  - unfold Intel64FSG_normalize_kwargs, CPU64Noop_normalize_kwargs.
    by rewrite H.
  - apply first_missing_None, FSG_normalize_kwargs_eq in E
      as (o' & -> & ->).
    done.
Qed.

(** X3: normalisation cannot be run twice: the options it returns no
    longer hold [cire-repeats-inv], so a second run raises [KeyError]
    for that key. *)
Theorem normalize_options_twice (o o' : gmap string pyval) :
  normalize_options o = Ok o' →
  normalize_options o' = Raise (KeyError "cire-repeats-inv").
Proof.
  intros H.
  pose proof (normalize_options_cases o) as Hf.
  destruct (first_missing o) eqn:E; [congruence|].
  apply first_missing_None, tunables_present_lookups in E
    as (bl & ri & rs & mi & ms & Hbl & Hri & Hrs & Hmi & Hms).
  rewrite (normalize_options_eq _ _ _ _ _ _ Hbl Hri Hrs Hmi Hms) in H.
  injection H as <-.
  pose proof (normalize_options_cases
                (normalized o bl ri rs mi ms)) as H2.
  unfold first_missing, tunables, missing, normalized in H2. simpl in H2.
  by simplify_map_eq.
Qed.

Lemma normalize_options_twice_witness :
  ∃ o', normalize_options default_options = Ok o' ∧
        normalize_options o' = Raise (KeyError "cire-repeats-inv").
Proof.
  eexists. split; [reflexivity|].
  by apply (normalize_options_twice default_options).
Defined.

Lemma first_missing_insert (o : gmap string pyval) (k : string) (v : pyval) :
  k ∉ tunables → first_missing (<[k := v]> o) = first_missing o.
Proof.
  unfold tunables. intros Hk.
  repeat (apply not_elem_of_cons in Hk as [? Hk]).
  unfold first_missing, tunables, missing. simpl.
  by rewrite !lookup_insert_ne by done.
Qed.

Lemma normalized_insert (o : gmap string pyval) (bl ri rs mi ms v : pyval)
  (k : string) :
  k = "cire-repeats" ∨ k = "cire-mincost" →
  normalized (<[k := v]> o) bl ri rs mi ms = normalized o bl ri rs mi ms.
Proof.
  intros Hk. apply map_eq. intros j. unfold normalized.
  destruct Hk as [-> | ->];
    repeat (rewrite lookup_insert || rewrite lookup_delete);
    repeat case_decide; try done; congruence.
Qed.

(** X4: what the caller put under [cire-repeats] or [cire-mincost] is
    of no account: normalisation overwrites both keys, so the outcome,
    result or exception, is the same with and without them. *)
Theorem normalize_options_overwrites (o : gmap string pyval) (k : string)
  (v : pyval) :
  k = "cire-repeats" ∨ k = "cire-mincost" →
  normalize_options (<[k := v]> o) = normalize_options o.
Proof.
  intros Hk.
  assert (Hn : k ∉ tunables).
  { unfold tunables. rewrite !not_elem_of_cons.
    destruct Hk as [-> | ->]; split_and!; try done; apply not_elem_of_nil. }
  pose proof (normalize_options_cases (<[k := v]> o)) as H1.
  pose proof (normalize_options_cases o) as H2.
  rewrite (first_missing_insert _ _ _ Hn) in H1.
  destruct (first_missing o) as [m|] eqn:E; [congruence|].
  apply first_missing_None, tunables_present_lookups in E
    as (bl & ri & rs & mi & ms & Hbl & Hri & Hrs & Hmi & Hms).
  rewrite (normalize_options_eq o _ _ _ _ _ Hbl Hri Hrs Hmi Hms).
  unfold tunables in Hn. repeat (apply not_elem_of_cons in Hn as [? Hn]).
  rewrite (normalize_options_eq (<[k := v]> o) bl ri rs mi ms)
    by by rewrite lookup_insert_ne.
  by rewrite normalized_insert.
Qed.

Lemma normalize_options_overwrites_witness :
  normalize_options (<["cire-repeats" := PyInt 7]> default_options)
  = normalize_options default_options.
Proof.
  apply (normalize_options_overwrites default_options "cire-repeats").
  by left.
Defined.

(** ** The fixed IET stages *)

(** Runs the calls of a straight-line stage one after the other. *)
Ltac unfold_stage :=
  repeat (progress (unfold mbind, M_bind, bind, mret, M_ret, ret, lift,
                      raise, when, symbol_definitions; simpl)).

Ltac run_calls :=
  unfold_stage;
  repeat match goal with
         | |- context [call_iet ?p ?g ?st] =>
             destruct (call_iet p g st) as [[[]|?] ?]; simpl
         end;
  try reflexivity.

Section FixedIet.
Context `{L : PassLibrary}.

Lemma Noop_iet_cases (graph : Graph) (kw : Kwargs) (st : State) :
  CPU64Noop_specialize_iet graph kw st
  = match options kw !! "mpi", options kw !! "openmp" with
    | None, _ => (Raise (KeyError "mpi"), st)
    | Some mpi, None =>
        (run_iet_pipeline (if truthy mpi then [mpiize mpi] else []) graph;;
         raise (KeyError "openmp")) st
    | Some mpi, Some openmp =>
        (run_iet_pipeline (Noop_iet_passes mpi openmp) graph;;
         mret graph) st
    end.
Proof.
  unfold CPU64Noop_specialize_iet, Noop_iet_passes, symbol_placement, getitem.
  destruct (options kw !! "mpi") as [mpi|]; [|done].
  destruct (options kw !! "openmp") as [openmp|]; unfold_stage;
    destruct (truthy mpi); try destruct (truthy openmp); run_calls.
Qed.

Lemma Base_iet_cases (graph : Graph) (kw : Kwargs) (st : State) :
  CPU64_specialize_iet graph kw st
  = match options kw !! "mpi" with
    | None =>
        (run_iet_pipeline [avoid_denormals; optimize_halospots] graph;;
         raise (KeyError "mpi")) st
    | Some mpi =>
        (run_iet_pipeline (Base_iet_passes kw mpi) graph;; mret graph) st
    end.
Proof.
  unfold CPU64_specialize_iet, Base_iet_passes, symbol_placement, getitem.
  destruct (options kw !! "mpi") as [mpi|]; unfold_stage;
    [destruct (truthy mpi)|]; run_calls.
Qed.

Lemma OpenMP_iet_cases (graph : Graph) (kw : Kwargs) (st : State) :
  CPU64OpenMP_specialize_iet graph kw st
  = match options kw !! "mpi" with
    | None =>
        (run_iet_pipeline [avoid_denormals; optimize_halospots] graph;;
         raise (KeyError "mpi")) st
    | Some mpi =>
        (run_iet_pipeline (OpenMP_iet_passes kw mpi) graph;; mret graph) st
    end.
Proof.
  unfold CPU64OpenMP_specialize_iet, OpenMP_iet_passes, symbol_placement,
    getitem.
  destruct (options kw !! "mpi") as [mpi|]; unfold_stage;
    [destruct (truthy mpi)|]; run_calls.
Qed.

Lemma pipeline_then_ret (ps : list iet_pass) (graph : Graph) (st : State) :
  ∃ l n,
    called ((run_iet_pipeline ps graph;; mret graph) st).2 = called st ++ l ∧
    l = IetPass <$> take n ps ∧
    (ps ≠ [] → 0 < n) ∧
    (is_ok ((run_iet_pipeline ps graph;; mret graph) st).1 = true →
     l = IetPass <$> ps ∧
     ((run_iet_pipeline ps graph;; mret graph) st).1 = Ok graph).
Proof.
  destruct (run_iet_pipeline_emits ps graph st)
    as (l & El & (n & En & Hn) & Hok).
  exists l, n. unfold mbind, M_bind, bind.
  destruct (run_iet_pipeline ps graph st) as [[[]|e] st1]; simpl in *;
    split_and!; try done. intros _. by split; [apply Hok|].
Qed.

Lemma pipeline_then_raise (ps : list iet_pass) (graph : Graph) (e : exn)
  (st : State) :
  ∃ l n,
    called ((run_iet_pipeline ps graph;; raise (A := Graph) e) st).2
    = called st ++ l ∧
    l = IetPass <$> take n ps ∧
    (ps ≠ [] → 0 < n) ∧
    is_ok ((run_iet_pipeline ps graph;; raise (A := Graph) e) st).1 = false ∧
    (is_ok (run_iet_pipeline ps graph st).1 = true →
     l = IetPass <$> ps ∧
     ((run_iet_pipeline ps graph;; raise (A := Graph) e) st).1 = Raise e).
Proof.
  destruct (run_iet_pipeline_emits ps graph st)
    as (l & El & (n & En & Hn) & Hok).
  exists l, n. unfold mbind, M_bind, bind.
  destruct (run_iet_pipeline ps graph st) as [[[]|e'] st1]; simpl in *;
    split_and!; try done. intros _. by split; [apply Hok|].
Qed.

End FixedIet.

(** X5: when the options do not hold [mpi], the IET stage of every
    class raises. The stages of [CPU64NoopOperator] and
    [CustomOperator] raise [KeyError] at once, with nothing called and
    the world untouched. The stages of the other classes have by then
    called [avoid_denormals], and [optimize_halospots] if that
    returned: they raise with the graph already changed, [KeyError]
    when both passes returned, and call nothing else. *)
Theorem specialize_iet_missing_mpi `{L : PassLibrary} (cls : operator_class)
  (graph : Graph) (kw : Kwargs) (st : State) :
  options kw !! "mpi" = None →
  match cls with
  | CPU64NoopOperator | CustomOperator =>
      _specialize_iet cls graph kw st = (Raise (KeyError "mpi"), st)
  | _ =>
    ∃ l n,
      called (_specialize_iet cls graph kw st).2 = called st ++ l ∧
      l = IetPass <$> take n [avoid_denormals; optimize_halospots] ∧
      0 < n ∧
      is_ok (_specialize_iet cls graph kw st).1 = false ∧
      (is_ok (run_iet_pipeline [avoid_denormals; optimize_halospots]
                graph st).1 = true →
       l = [IetPass avoid_denormals; IetPass optimize_halospots] ∧
       (_specialize_iet cls graph kw st).1 = Raise (KeyError "mpi"))
  end.
Proof.
  intros Hm.
  assert (HB : ∃ l n,
             called (CPU64_specialize_iet graph kw st).2 = called st ++ l ∧
             l = IetPass <$> take n [avoid_denormals; optimize_halospots] ∧
             0 < n ∧
             is_ok (CPU64_specialize_iet graph kw st).1 = false ∧
             (is_ok (run_iet_pipeline [avoid_denormals; optimize_halospots]
                       graph st).1 = true →
              l = [IetPass avoid_denormals; IetPass optimize_halospots] ∧
              (CPU64_specialize_iet graph kw st).1 = Raise (KeyError "mpi"))).
  { rewrite Base_iet_cases, Hm.
    destruct (pipeline_then_raise [avoid_denormals; optimize_halospots]
                graph (KeyError "mpi") st) as (l & n & E & El & Hn & F & Hok).
    exists l, n. split_and!; try done. by apply Hn. }
  assert (HO : ∃ l n,
             called (CPU64OpenMP_specialize_iet graph kw st).2
             = called st ++ l ∧
             l = IetPass <$> take n [avoid_denormals; optimize_halospots] ∧
             0 < n ∧
             is_ok (CPU64OpenMP_specialize_iet graph kw st).1 = false ∧
             (is_ok (run_iet_pipeline [avoid_denormals; optimize_halospots]
                       graph st).1 = true →
              l = [IetPass avoid_denormals; IetPass optimize_halospots] ∧
              (CPU64OpenMP_specialize_iet graph kw st).1
              = Raise (KeyError "mpi"))).
  { rewrite OpenMP_iet_cases, Hm.
    destruct (pipeline_then_raise [avoid_denormals; optimize_halospots]
                graph (KeyError "mpi") st) as (l & n & E & El & Hn & F & Hok).
    exists l, n. split_and!; try done. by apply Hn. }
  destruct cls; simpl; try done.
  - by rewrite Noop_iet_cases, Hm.
  - unfold Custom_specialize_iet, _make_iet_passes_mapper, getitem.
    rewrite Hm. reflexivity.
Qed.

Lemma specialize_iet_missing_mpi_witness :
  @_specialize_iet recording_lib CustomOperator tt
    (kwargs_of ["simd"] (delete "mpi" default_options))
    (@initial recording_lib [])
  = (Raise (KeyError "mpi"), @initial recording_lib []) ∧
  is_ok (@_specialize_iet recording_lib CPU64Operator tt
           (kwargs_of [] (delete "mpi" default_options))
           (@initial recording_lib [])).1 = false.
Proof.
  split.
  - by apply (@specialize_iet_missing_mpi recording_lib CustomOperator).
  - destruct (@specialize_iet_missing_mpi recording_lib CPU64Operator tt
                (kwargs_of [] (delete "mpi" default_options))
                (@initial recording_lib []))
      as (l & n & _ & _ & _ & F & _); [reflexivity|exact F].
Defined.

(** X6: the IET stages of [CPU64Operator] and [CPU64OpenMPOperator]
    read nothing of the keyword arguments but [options['mpi']] and the
    SIMD register size of the platform: two builds that agree on these
    run the same stage, whatever their [mode], their [openmp] option and
    their other options. *)
Theorem fixed_iet_reads_mpi_and_platform `{L : PassLibrary}
  (graph : Graph) (kw1 kw2 : Kwargs) (st : State) :
  options kw1 !! "mpi" = options kw2 !! "mpi" →
  simd_reg_size (platform kw1) = simd_reg_size (platform kw2) →
  CPU64_specialize_iet graph kw1 st = CPU64_specialize_iet graph kw2 st ∧
  CPU64OpenMP_specialize_iet graph kw1 st
  = CPU64OpenMP_specialize_iet graph kw2 st.
Proof.
  intros Hm Hp. rewrite !Base_iet_cases, !OpenMP_iet_cases, Hm.
  unfold Base_iet_passes, OpenMP_iet_passes. by rewrite Hp.
Qed.

Lemma fixed_iet_reads_mpi_and_platform_witness :
  @CPU64OpenMP_specialize_iet recording_lib tt
    (kwargs_of ["fuse"] (<["openmp" := PyBool false]> default_options))
    (@initial recording_lib [])
  = @CPU64OpenMP_specialize_iet recording_lib tt
      (kwargs_of [] (<["openmp" := PyBool true]> default_options))
      (@initial recording_lib []).
Proof.
  by apply (@fixed_iet_reads_mpi_and_platform recording_lib tt
              (kwargs_of ["fuse"] (<["openmp" := PyBool false]> default_options))
              (kwargs_of [] (<["openmp" := PyBool true]> default_options))).
Defined.

(** X7: with an empty [mode] the IET stage of the custom operator is
    the IET stage of [CPU64NoopOperator]: same result, same calls, same
    world, for every pass library and all options, missing keys
    included. *)
Theorem Custom_empty_mode_is_Noop `{L : PassLibrary} (graph : Graph)
  (kw : Kwargs) (st : State) :
  Custom_specialize_iet graph (with_mode kw []) st
  = CPU64Noop_specialize_iet graph kw st.
Proof.
  rewrite Noop_iet_cases.
  destruct (options kw !! "mpi") as [mpi|] eqn:Hm.
  2:{ unfold Custom_specialize_iet, _make_iet_passes_mapper, getitem. simpl.
      by rewrite Hm. }
  destruct (options kw !! "openmp") as [openmp|] eqn:Ho.
  - rewrite (Custom_specialize_iet_eq graph (with_mode kw []) mpi openmp st
               Hm Ho).
    unfold forced_passes, forced, Noop_iet_passes. simpl.
    rewrite <- app_assoc. unfold mbind, M_bind, bind. simpl.
    by destruct (run_iet_pipeline _ graph st) as [[[]|e] st1].
  - unfold Custom_specialize_iet, _make_iet_passes_mapper, getitem. simpl.
    unfold mbind at 1 2 3. unfold M_bind at 1 2 3. unfold bind at 1 2 3.
    unfold lift at 1. rewrite Hm. simpl.
    rewrite (force_call_eq "mpi" (mpiize mpi) (with_mode kw []) mpi mpi
               graph st (iet_passes_dict_mpi _ mpi) Hm).
    unfold forced. simpl. unfold mbind, M_bind, bind.
    destruct (run_iet_pipeline _ graph st) as [[[]|e] st1]; [|done].
    unfold force_call, getitem. simpl. rewrite Ho. reflexivity.
Qed.

(** X8: runs of the Base and of the OpenMP IET stage that both return
    have made the same calls but for [make_parallel], which the OpenMP
    stage calls once, whatever the option [openmp], between [make_simd]
    and [hoist_prodders], and the Base stage never. *)
Theorem OpenMP_adds_make_parallel `{L : PassLibrary} (kw : Kwargs)
  (graph gb go : Graph) (sb sb' so so' : State) :
  CPU64_specialize_iet graph kw sb = (Ok gb, sb') →
  CPU64OpenMP_specialize_iet graph kw so = (Ok go, so') →
  ∃ mpi tb to,
    options kw !! "mpi" = Some mpi ∧
    called sb' = called sb ++ tb ∧
    called so' = called so ++ to ∧
    tb = IetPass <$> Base_iet_passes kw mpi ∧
    to = IetPass <$> OpenMP_iet_passes kw mpi ∧
    filter (λ e, is_make_parallel e = false) to = tb ∧
    filter (λ e, is_make_parallel e = true) to = [IetPass make_parallel] ∧
    ∃ pre post,
      tb = pre ++ [IetPass (make_simd (simd_reg_size (platform kw)));
                   IetPass hoist_prodders] ++ post ∧
      to = pre ++ [IetPass (make_simd (simd_reg_size (platform kw)));
                   IetPass make_parallel;
                   IetPass hoist_prodders] ++ post.
Proof.
  intros Hb Ho.
  pose proof (Base_iet_cases graph kw sb) as Eb.
  pose proof (OpenMP_iet_cases graph kw so) as Eo.
  destruct (options kw !! "mpi") as [mpi|] eqn:Hm.
  2:{ destruct (pipeline_then_raise [avoid_denormals; optimize_halospots]
                  graph (KeyError "mpi") sb) as (l & n & _ & _ & _ & F & _).
      rewrite <- Eb, Hb in F. discriminate F. }
  destruct (pipeline_then_ret (Base_iet_passes kw mpi) graph sb)
    as (tb & nb & Cb & _ & _ & Hokb).
  destruct (pipeline_then_ret (OpenMP_iet_passes kw mpi) graph so)
    as (to & no & Co & _ & _ & Hoko).
  rewrite <- Eb, Hb in Cb, Hokb. rewrite <- Eo, Ho in Co, Hoko.
  destruct (Hokb eq_refl) as [-> _]. destruct (Hoko eq_refl) as [-> _].
  eexists mpi, _, _. split_and!; try done; try reflexivity.
  - unfold OpenMP_iet_passes, Base_iet_passes. by destruct (truthy mpi).
  - unfold OpenMP_iet_passes. by destruct (truthy mpi).
  - unfold OpenMP_iet_passes, Base_iet_passes.
    destruct (truthy mpi).
    + by eexists [_; _; _; _], [_; _].
    + by eexists [_; _; _], [_; _].
Qed.

Lemma OpenMP_adds_make_parallel_witness :
  ∃ tb to,
    tb = IetPass <$> Base_iet_passes (kwargs_of [] default_options)
                       (PyBool false) ∧
    to = IetPass <$> OpenMP_iet_passes (kwargs_of [] default_options)
                       (PyBool false) ∧
    filter (λ e, is_make_parallel e = false) to = tb.
Proof.
  destruct (@OpenMP_adds_make_parallel recording_lib
              (kwargs_of [] default_options) tt _ _
              (@initial recording_lib []) _ (@initial recording_lib []) _
              eq_refl eq_refl)
    as (mpi & tb & to & Hm & _ & _ & -> & -> & F & _).
  injection Hm as <-. by eexists _, _.
Defined.

(** ** Exceptions in the cluster stages *)

(** X9: in the cluster stage of [CPU64Operator] and in that of
    [Intel64FSGOperator], when the passes before [p] return and [p]
    raises, the stage raises the exception of [p]: the calls made are
    those up to [p], none of the passes after it is called, and the
    world is as [p] left it. *)
Theorem fixed_cluster_stage_stops_at_raise `{L : PassLibrary} (fsg : bool)
  (kw : Kwargs) (ps qs : list cluster_pass) (p : cluster_pass)
  (clusters clusters1 : Clusters) (st st1 : State) (e : exn) (w : World) :
  (if fsg then spec_FSG_cluster_pipeline kw
   else spec_Base_cluster_pipeline kw) = ps ++ p :: qs →
  run_cluster_pipeline ps clusters st = (Ok clusters1, st1) →
  cluster_lib p clusters1 (world st1) = (Raise e, w) →
  (if fsg then Intel64FSG_specialize_clusters clusters kw st
   else CPU64_specialize_clusters clusters kw st)
  = (Raise e, {| world := w;
                 called := called st ++ (ClusterPass <$> ps)
                           ++ [ClusterPass p] |}).
Proof.
  intros Hp Hps He. destruct fsg.
  - rewrite Intel64FSG_specialize_clusters_pipeline, Hp.
    by apply run_cluster_pipeline_raise with clusters1 st1.
  - rewrite CPU64_specialize_clusters_pipeline, Hp.
    by apply run_cluster_pipeline_raise with clusters1 st1.
Qed.

Lemma fixed_cluster_stage_stops_at_raise_witness :
  (@CPU64_specialize_clusters keyerror_lib ["start"]
     (kwargs_of [] default_options) (@initial keyerror_lib [])).1
  = Raise (KeyError "internal").
Proof.
  rewrite (@fixed_cluster_stage_stops_at_raise keyerror_lib false
             (kwargs_of [] default_options)
             [fuse true; cire invariants default_options default_platform;
              Lift_process; Blocking_process default_options;
              extract_increments; cire sops default_options default_platform;
              factorize; optimize_pows; cse]
             [eliminate_arrays] (fuse false) ["start"] _
             (@initial keyerror_lib []) _ (KeyError "internal") []
             eq_refl eq_refl eq_refl).
  reflexivity.
Defined.

(** X10: in the cluster stage of the custom operator an exception other
    than [KeyError], raised by the pass of a token, ends the stage: it
    is the result, and the tokens after it are not looked at. *)
Theorem custom_cluster_stage_stops_at_raise `{L : PassLibrary} (kw : Kwargs)
  (p1 p2 : list string) (i : string) (f : Clusters → M Clusters)
  (clusters clusters1 : Clusters) (st st1 st2 : State) (e : exn) :
  mode kw = p1 ++ i :: p2 →
  Custom_specialize_clusters clusters (with_mode kw p1) st
  = (Ok clusters1, st1) →
  _make_clusters_passes_mapper kw !! i = Some f →
  f clusters1 st1 = (Raise e, st2) →
  (∀ k, e ≠ KeyError k) →
  Custom_specialize_clusters clusters kw st = (Raise e, st2).
Proof.
  unfold Custom_specialize_clusters. simpl.
  change (_make_clusters_passes_mapper (with_mode kw p1))
    with (_make_clusters_passes_mapper kw).
  intros -> H1 Hf He Hk. rewrite clusters_loop_app.
  unfold mbind, M_bind, bind. rewrite H1.
  by apply clusters_loop_raise with f.
Qed.

Lemma custom_cluster_stage_stops_at_raise_witness :
  (@Custom_specialize_clusters failing_lib ["start"]
     (kwargs_of ["fuse"; "cse"; "factorize"] default_options)
     (@initial failing_lib [])).1
  = Raise (PassFailure "cse").
Proof.
  erewrite (@custom_cluster_stage_stops_at_raise failing_lib
              (kwargs_of ["fuse"; "cse"; "factorize"] default_options)
              ["fuse"] ["factorize"] "cse" _ ["start"] _
              (@initial failing_lib []) _ _ (PassFailure "cse"));
    [reflexivity|reflexivity|reflexivity|reflexivity|reflexivity|done].
Defined.

(** X11: a [KeyError] raised by the pass of a token is handled like a
    missing key: the cluster stage goes on with the next token, on the
    clusters it had before the call and from the state the pass left. *)
Theorem custom_cluster_stage_goes_on_after_KeyError `{L : PassLibrary}
  (kw : Kwargs) (i : string) (passes : list string)
  (f : Clusters → M Clusters) (clusters : Clusters) (st st' : State)
  (k : string) :
  mode kw = i :: passes →
  _make_clusters_passes_mapper kw !! i = Some f →
  f clusters st = (Raise (KeyError k), st') →
  Custom_specialize_clusters clusters kw st
  = Custom_specialize_clusters clusters (with_mode kw passes) st'.
Proof.
  unfold Custom_specialize_clusters. simpl.
  change (_make_clusters_passes_mapper (with_mode kw passes))
    with (_make_clusters_passes_mapper kw).
  intros -> Hf He. simpl.
  unfold mbind, M_bind, bind, try_except_KeyError, mapper_call.
  by rewrite Hf, He.
Qed.

Lemma custom_cluster_stage_goes_on_after_KeyError_witness :
  @Custom_specialize_clusters keyerror_lib ["start"]
    (kwargs_of ["fuse"; "cse"] default_options) (@initial keyerror_lib [])
  = @Custom_specialize_clusters keyerror_lib ["start"]
      (kwargs_of ["cse"] default_options)
      (@Build_State keyerror_lib [] [ClusterPass (fuse false)]).
Proof.
  by apply (@custom_cluster_stage_goes_on_after_KeyError keyerror_lib
              (kwargs_of ["fuse"; "cse"] default_options) "fuse" ["cse"]
              (call_cluster (fuse false)) ["start"]
              (@initial keyerror_lib []) _ "internal").
Defined.

(** ** What the custom operator can and cannot call *)

Section CallsOnly.
Context `{L : PassLibrary}.

Lemma co_ret {A} (P : event → Prop) (a : A) : calls_only P (mret a).
Proof. apply emits_ret. constructor. Qed.

Lemma co_raise {A} (P : event → Prop) (e : exn) :
  calls_only P (raise (A := A) e).
Proof. apply emits_raise. constructor. Qed.

Lemma co_call_cluster (P : event → Prop) (p : cluster_pass)
  (clusters : Clusters) :
  P (ClusterPass p) → calls_only P (call_cluster p clusters).
Proof. intros H. apply emits_call_cluster. intros _. by repeat constructor. Qed.

Lemma co_bind {A B} (P : event → Prop) (m : M A) (f : A → M B) :
  calls_only P m → (∀ a, calls_only P (f a)) → calls_only P (m ≫= f).
Proof.
  intros Hm Hf. eapply emits_bind; [exact Hm|done|].
  intros a l Hl. eapply emits_conseq; [apply Hf|].
  intros r l' Hl'. by apply Forall_app.
Qed.

Lemma co_try_except_KeyError {A} (P : event → Prop) (body : M A) (dflt : A) :
  calls_only P body → calls_only P (try_except_KeyError body dflt).
Proof. intros H. eapply emits_try_except_KeyError; [exact H|done..]. Qed.

Lemma co_clusters_loop (P : event → Prop)
  (pm : gmap string (Clusters → M Clusters)) (passes : list string)
  (clusters : Clusters) :
  (∀ i f, pm !! i = Some f → ∀ x, calls_only P (f x)) →
  calls_only P (clusters_loop pm passes clusters).
Proof.
  intros H. revert clusters.
  induction passes as [|i passes IH]; intros clusters; simpl.
  - apply co_ret.
  - apply co_bind; [|done]. apply co_try_except_KeyError.
    unfold mapper_call. destruct (pm !! i) as [f|] eqn:E.
    + by eapply H.
    + apply co_raise.
Qed.

End CallsOnly.

(** X12: whatever the [mode], the pass library and the run, the cluster
    stage of the custom operator calls cluster passes that have a token
    only: it never calls [extract_increments] nor [eliminate_arrays],
    which the Base stage calls, and it calls no IET pass. *)
Theorem custom_cluster_stage_calls `{L : PassLibrary} (clusters : Clusters)
  (kw : Kwargs) (st : State) :
  ∃ l,
    called (Custom_specialize_clusters clusters kw st).2 = called st ++ l ∧
    Forall has_token l ∧
    (ClusterPass extract_increments ∉ l) ∧
    (ClusterPass eliminate_arrays ∉ l) ∧
    (∀ p, IetPass p ∉ l).
Proof.
  assert (H : calls_only has_token (Custom_specialize_clusters clusters kw)).
  { unfold Custom_specialize_clusters. apply co_clusters_loop.
    intros i f Hf x. unfold _make_clusters_passes_mapper in Hf. simpl in Hf.
    repeat (rewrite lookup_insert in Hf; case_decide;
            [injection Hf as <-;
             first [by apply co_call_cluster
                   |apply co_bind; [|intros ?]; by apply co_call_cluster]|]).
    by rewrite lookup_empty in Hf. }
  destruct (H st) as (l & El & Hl). exists l. split_and!; [done|done|..].
  - intros Hin. by apply (proj1 (Forall_forall _ _) Hl) in Hin.
  - intros Hin. by apply (proj1 (Forall_forall _ _) Hl) in Hin.
  - intros p Hin. by apply (proj1 (Forall_forall _ _) Hl) in Hin.
Qed.

(** X13: the vocabulary [_known_passes] is the set of keys of the two
    mappers: a token is accepted by [_build] exactly when the cluster
    stage or the IET stage has a pass for it. *)
Theorem known_passes_are_the_mapper_keys `{L : PassLibrary} (kw : Kwargs)
  (mpi : pyval) (i : string) :
  i ∈ _known_passes
  ↔ is_Some (_make_clusters_passes_mapper kw !! i)
    ∨ is_Some (iet_passes_dict kw mpi !! i).
Proof.
  rewrite clusters_mapper_keys, iet_mapper_keys. split.
  - apply known_pass_stage.
  - unfold clusters_stage_tokens, iet_stage_tokens.
    intros [Hi|Hi];
      repeat (apply elem_of_cons in Hi as [->|Hi];
              [by apply (bool_decide_unpack (_ ∈ _))|]);
      by apply elem_of_nil in Hi.
Qed.

(** ** The check of [_build] *)

Lemma any_unknown_false (passes : list string) :
  any_unknown passes = false ↔ ∀ i, i ∈ passes → i ∈ _known_passes.
Proof.
  rewrite <- not_true_iff_false, any_unknown_true. split.
  - intros H i Hi. destruct (decide (i ∈ _known_passes)); [done|].
    destruct H. by exists i.
  - intros H (i & Hi & Hn). by apply Hn, H.
Qed.

(** X14: whether [_build] accepts a mode depends on the set of its
    tokens only: modes with the same tokens, in any order and any
    number of times, are accepted or rejected together, and a
    concatenation is rejected exactly when one of its parts is. *)
Theorem any_unknown_set (m1 m2 : list string) :
  (∀ i, i ∈ m1 ↔ i ∈ m2) →
  any_unknown m1 = any_unknown m2 ∧
  any_unknown (m1 ++ m2) = any_unknown m1 ∧
  ∀ m3, any_unknown (m1 ++ m3) = any_unknown m1 || any_unknown m3.
Proof.
  intros H.
  assert (Happ : ∀ a b, any_unknown (a ++ b) = any_unknown a || any_unknown b).
  { intros a b. unfold any_unknown. apply existsb_app. }
  assert (E : any_unknown m1 = any_unknown m2).
  { destruct (any_unknown m2) eqn:E2.
    - apply any_unknown_true in E2 as (i & Hi & Hn).
      apply any_unknown_true. exists i. by rewrite H.
    - apply any_unknown_false. intros i Hi%H.
      by apply (proj1 (any_unknown_false m2)). }
  split_and!; [done| |done].
  rewrite Happ, <- E. by destruct (any_unknown m1).
Qed.

Lemma any_unknown_set_witness :
  any_unknown ["fuse"; "cse"; "fuse"] = any_unknown ["cse"; "fuse"].
Proof.
  apply (any_unknown_set ["fuse"; "cse"; "fuse"] ["cse"; "fuse"]).
  intros i. rewrite !elem_of_cons. tauto.
Defined.

(** X15: for a mode whose tokens are all in the vocabulary, the empty
    mode and modes with a token several times among them, [_build] is
    the inherited [_build], on the same expressions and keyword
    arguments. *)
Theorem Custom_build_delegates `{L : PassLibrary} {Expr Op : Type}
  (super_build : Expr → Kwargs → M Op) (expressions : Expr) (kw : Kwargs)
  (st : State) :
  (∀ i, i ∈ mode kw → i ∈ _known_passes) →
  Custom_build super_build expressions kw st
  = super_build expressions kw st.
Proof.
  intros H%any_unknown_false. unfold Custom_build. by rewrite H.
Qed.

Lemma Custom_build_delegates_witness :
  @Custom_build recording_lib unit (list string)
    (λ _ kw, @Custom_specialize_clusters recording_lib [] kw) tt
    (kwargs_of ["cse"; "cse"] default_options) (@initial recording_lib [])
  = @Custom_specialize_clusters recording_lib []
      (kwargs_of ["cse"; "cse"] default_options) (@initial recording_lib []).
Proof.
  apply (@Custom_build_delegates recording_lib unit (list string)).
  intros i Hi. simpl in Hi.
  repeat (apply elem_of_cons in Hi as [->|Hi];
          [by apply (bool_decide_unpack (_ ∈ _))|]).
  by apply elem_of_nil in Hi.
Defined.

(** ** Whole runs with passes that return *)

Lemma run_iet_pipeline_returns `{L : PassLibrary} (ps : list iet_pass)
  (graph : Graph) (st : State) :
  passes_return L →
  ∃ st', run_iet_pipeline ps graph st = (Ok tt, st') ∧
         called st' = called st ++ (IetPass <$> ps).
Proof.
  intros HR. revert st. induction ps as [|p ps IH]; intros st; simpl.
  - exists st. by rewrite app_nil_r.
  - destruct (call_iet_returns p graph st HR) as ([] & st1 & E1 & C1).
    destruct (IH st1) as (st2 & E2 & C2).
    exists st2. unfold mbind, M_bind, bind. rewrite E1, E2.
    split; [done|]. by rewrite C2, C1, <- app_assoc.
Qed.

Lemma run_cluster_pipeline_returns `{L : PassLibrary} (ps : list cluster_pass)
  (clusters : Clusters) (st : State) :
  passes_return L →
  ∃ clusters' st',
    run_cluster_pipeline ps clusters st = (Ok clusters', st') ∧
    called st' = called st ++ (ClusterPass <$> ps).
Proof.
  intros HR. revert clusters st.
  induction ps as [|p ps IH]; intros clusters st; simpl.
  - exists clusters, st. by rewrite app_nil_r.
  - destruct (call_cluster_returns p clusters st HR) as (c1 & st1 & E1 & C1).
    destruct (IH c1 st1) as (c2 & st2 & E2 & C2).
    exists c2, st2. unfold mbind, M_bind, bind. rewrite E1, E2.
    split; [done|]. by rewrite C2, C1, <- app_assoc.
Qed.

(** X16: with passes that return and options that hold [mpi] and
    [openmp], the IET stage of the custom operator returns the graph it
    was given, and its calls are, in this order: for each token of
    [mode] that is a key of the mapper, its pass, as often as the token
    occurs and whatever the options (the token 'mpi' calls [mpiize] even
    when the option [mpi] is falsy); then the forced passes; then the
    symbol placement. *)
Theorem custom_iet_stage_calls `{L : PassLibrary} (graph : Graph)
  (kw : Kwargs) (mpi openmp : pyval) (st : State) :
  passes_return L →
  options kw !! "mpi" = Some mpi →
  options kw !! "openmp" = Some openmp →
  ∃ st',
    Custom_specialize_iet graph kw st = (Ok graph, st') ∧
    called st'
    = called st ++ mode_calls (iet_stage_calls kw mpi) (mode kw)
      ++ (IetPass <$> forced_passes kw mpi openmp)
      ++ (IetPass <$> symbol_placement).
Proof.
  intros HR Hm Ho.
  rewrite (Custom_specialize_iet_eq graph kw mpi openmp st Hm Ho).
  destruct (iet_loop_calls (iet_passes_dict kw mpi) (iet_stage_calls kw mpi)
              (mode kw) graph st (iet_mapper_calls kw mpi HR))
    as (st1 & E1 & C1).
  destruct (run_iet_pipeline_returns
              (forced_passes kw mpi openmp ++ symbol_placement) graph st1 HR)
    as (st2 & E2 & C2).
  exists st2. unfold mbind, M_bind, bind. rewrite E1, E2.
  split; [done|]. by rewrite C2, C1, fmap_app, <- !app_assoc.
Qed.

Lemma custom_iet_stage_calls_witness :
  ∃ st',
    @Custom_specialize_iet recording_lib tt
      (kwargs_of ["mpi"; "simd"; "mpi"] default_options)
      (@initial recording_lib [])
    = (Ok tt, st') ∧
    called st' = [IetPass (mpiize (PyBool false)); IetPass (make_simd 32);
                  IetPass (mpiize (PyBool false));
                  IetPass place_definitions; IetPass place_casts].
Proof.
  destruct (@custom_iet_stage_calls recording_lib tt
              (kwargs_of ["mpi"; "simd"; "mpi"] default_options)
              (PyBool false) (PyBool false) (@initial recording_lib [])
              recording_lib_returns)
    as (st' & E & C); [reflexivity..|].
  by exists st'.
Defined.

(** X17: the cluster stage of the custom operator for a mode [m1 ++ m2]
    is its stage for [m1] followed, when that returns, by its stage for
    [m2] on the clusters returned; when the first raises, so does the
    whole, with the same exception and state. *)
Theorem custom_cluster_stage_app `{L : PassLibrary} (kw : Kwargs)
  (m1 m2 : list string) (clusters : Clusters) (st : State) :
  Custom_specialize_clusters clusters (with_mode kw (m1 ++ m2)) st
  = match Custom_specialize_clusters clusters (with_mode kw m1) st with
    | (Ok clusters1, st1) =>
        Custom_specialize_clusters clusters1 (with_mode kw m2) st1
    | (Raise e, st1) => (Raise e, st1)
    end.
Proof.
  unfold Custom_specialize_clusters. simpl.
  change (_make_clusters_passes_mapper (with_mode kw (m1 ++ m2)))
    with (_make_clusters_passes_mapper kw).
  change (_make_clusters_passes_mapper (with_mode kw m1))
    with (_make_clusters_passes_mapper kw).
  change (_make_clusters_passes_mapper (with_mode kw m2))
    with (_make_clusters_passes_mapper kw).
  by rewrite clusters_loop_app.
Qed.

(** X18: with passes that return, the cluster stages of
    [CPU64Operator] and [Intel64FSGOperator] return after the eleven
    calls of their pipelines, and, the options holding [mpi], the IET
    stages of [CPU64Operator] and [CPU64OpenMPOperator] return the
    graph they were given after the calls of theirs. *)
Theorem fixed_stages_return `{L : PassLibrary} (kw : Kwargs) (mpi : pyval)
  (clusters : Clusters) (graph : Graph) (st : State) :
  passes_return L →
  options kw !! "mpi" = Some mpi →
  (∃ c st', CPU64_specialize_clusters clusters kw st = (Ok c, st') ∧
            called st'
            = called st ++ (ClusterPass <$> spec_Base_cluster_pipeline kw)) ∧
  (∃ c st', Intel64FSG_specialize_clusters clusters kw st = (Ok c, st') ∧
            called st'
            = called st ++ (ClusterPass <$> spec_FSG_cluster_pipeline kw)) ∧
  (∃ st', CPU64_specialize_iet graph kw st = (Ok graph, st') ∧
          called st' = called st ++ (IetPass <$> Base_iet_passes kw mpi)) ∧
  (∃ st', CPU64OpenMP_specialize_iet graph kw st = (Ok graph, st') ∧
          called st' = called st ++ (IetPass <$> OpenMP_iet_passes kw mpi)).
Proof.
  intros HR Hm. split_and!.
  - rewrite CPU64_specialize_clusters_pipeline.
    by apply run_cluster_pipeline_returns.
  - rewrite Intel64FSG_specialize_clusters_pipeline.
    by apply run_cluster_pipeline_returns.
  - rewrite Base_iet_cases, Hm.
    destruct (run_iet_pipeline_returns (Base_iet_passes kw mpi) graph st HR)
      as (st' & E & C).
    exists st'. unfold mbind, M_bind, bind. by rewrite E.
  - rewrite OpenMP_iet_cases, Hm.
    destruct (run_iet_pipeline_returns (OpenMP_iet_passes kw mpi) graph st HR)
      as (st' & E & C).
    exists st'. unfold mbind, M_bind, bind. by rewrite E.
Qed.

Lemma fixed_stages_return_witness :
  ∃ st',
    @CPU64OpenMP_specialize_iet recording_lib tt
      (kwargs_of [] (<["mpi" := PyStr "basic"]> default_options))
      (@initial recording_lib [])
    = (Ok tt, st') ∧
    world st' = ["denormals"; "optcomms"; "mpi"; "relax-incr-dimensions";
                 "simd"; "openmp"; "prodders";
                 "place-definitions"; "place-casts"].
Proof.
  destruct (@fixed_stages_return recording_lib
              (kwargs_of [] (<["mpi" := PyStr "basic"]> default_options))
              (PyStr "basic") [] tt (@initial recording_lib [])
              recording_lib_returns)
    as (_ & _ & _ & st' & E & C); [reflexivity|].
  exists st'. split; [exact E|].
  change (@CPU64OpenMP_specialize_iet recording_lib tt
            (kwargs_of [] (<["mpi" := PyStr "basic"]> default_options))
            (@initial recording_lib []))
    with (@Ok unit tt,
          @Build_State recording_lib
            ["denormals"; "optcomms"; "mpi"; "relax-incr-dimensions";
             "simd"; "openmp"; "prodders";
             "place-definitions"; "place-casts"]
            [IetPass avoid_denormals; IetPass optimize_halospots;
             IetPass (mpiize (PyStr "basic")); IetPass relax_incr_dimensions;
             IetPass (make_simd 32); IetPass make_parallel;
             IetPass hoist_prodders; IetPass place_definitions;
             IetPass place_casts]) in E.
  by injection E as <-.
Defined.

(** ** The option [openmp] *)

(** X19: in the IET stage of [CPU64NoopOperator], options that hold
    [mpi] but not [openmp] make the stage raise after the MPI step: by
    then [mpiize] has been called if [mpi] is truthy, the symbol
    placement is never reached, and with a falsy [mpi] the stage raises
    [KeyError] with nothing called. *)
Theorem Noop_iet_missing_openmp `{L : PassLibrary} (graph : Graph)
  (kw : Kwargs) (mpi : pyval) (st : State) :
  options kw !! "mpi" = Some mpi →
  options kw !! "openmp" = None →
  is_ok (CPU64Noop_specialize_iet graph kw st).1 = false ∧
  called (CPU64Noop_specialize_iet graph kw st).2
  = called st ++ (if truthy mpi then [IetPass (mpiize mpi)] else []) ∧
  (truthy mpi = false →
   CPU64Noop_specialize_iet graph kw st = (Raise (KeyError "openmp"), st)).
Proof.
  intros Hm Ho. rewrite Noop_iet_cases, Hm, Ho.
  destruct (truthy mpi); simpl.
  - unfold mbind, M_bind, bind, call_iet.
    by destruct (iet_lib (mpiize mpi) graph (world st)) as [[[]|e] w].
  - by rewrite app_nil_r.
Qed.

Lemma Noop_iet_missing_openmp_witness :
  @CPU64Noop_specialize_iet recording_lib tt
    (kwargs_of [] (delete "openmp" default_options))
    (@initial recording_lib [])
  = (Raise (KeyError "openmp"), @initial recording_lib []).
Proof.
  by apply (@Noop_iet_missing_openmp recording_lib tt
              (kwargs_of [] (delete "openmp" default_options))
              (PyBool false)).
Defined.

(** X20: when 'openmp' is a token of [mode], the IET stage of the
    custom operator does not read the option [openmp]: the stage is the
    same whatever the value of the option. *)
Theorem custom_iet_token_openmp `{L : PassLibrary} (graph : Graph)
  (kw : Kwargs) (v : pyval) (st : State) :
  "openmp" ∈ mode kw →
  Custom_specialize_iet graph
    (with_options kw (<["openmp" := v]> (options kw))) st
  = Custom_specialize_iet graph kw st.
Proof.
  intros Hin.
  unfold Custom_specialize_iet, _make_iet_passes_mapper, force_call. simpl.
  rewrite (bool_decide_eq_true_2 _ Hin). cbv iota.
  unfold getitem. rewrite !lookup_insert_ne by done.
  reflexivity.
Qed.

Lemma custom_iet_token_openmp_witness :
  @Custom_specialize_iet recording_lib tt
    (kwargs_of ["openmp"] (<["openmp" := PyBool true]> default_options))
    (@initial recording_lib [])
  = @Custom_specialize_iet recording_lib tt
      (kwargs_of ["openmp"] default_options) (@initial recording_lib []).
Proof.
  apply (@custom_iet_token_openmp recording_lib tt
           (kwargs_of ["openmp"] default_options) (PyBool true)).
  by left.
Defined.

(** * The custom stages as a whole *)

Section CustomStages.
Context `{L : PassLibrary}.

Lemma make_iet_passes_mapper_eq (kw : Kwargs) (mpi : pyval) (st : State) :
  options kw !! "mpi" = Some mpi →
  _make_iet_passes_mapper kw st = (Ok (iet_passes_dict kw mpi), st).
Proof.
  intros Hm. unfold _make_iet_passes_mapper, getitem.
  unfold mbind, M_bind, bind, lift. by rewrite Hm.
Qed.

(** The IET stage with its mapper built: the loop over [mode], the two
    forced calls, the symbol definitions. *)
Lemma Custom_specialize_iet_loop (graph : Graph) (kw : Kwargs) (mpi : pyval)
  (st : State) :
  options kw !! "mpi" = Some mpi →
  Custom_specialize_iet graph kw st
  = (iet_loop (iet_passes_dict kw mpi) (mode kw) graph;;
     force_call "mpi" (iet_passes_dict kw mpi) kw graph;;
     force_call "openmp" (iet_passes_dict kw mpi) kw graph;;
     symbol_definitions graph;;
     mret graph) st.
Proof.
  intros Hm. unfold Custom_specialize_iet.
  unfold mbind at 1. unfold M_bind at 1. unfold bind at 1.
  by rewrite (make_iet_passes_mapper_eq kw mpi st Hm).
Qed.

Lemma iet_passes_dict_keys_mpi_openmp (kw : Kwargs) (mpi : pyval)
  (i name : string) :
  iet_passes_dict kw mpi !! i = None →
  name = "mpi" ∨ name = "openmp" →
  bool_decide (name ∈ i :: mode kw) = bool_decide (name ∈ mode kw).
Proof.
  intros Hi Hn. apply bool_decide_ext. rewrite elem_of_cons.
  split; [|by right]. intros [->|H]; [|done].
  destruct Hn as [-> | ->].
  - by rewrite iet_passes_dict_mpi in Hi.
  - by rewrite iet_passes_dict_openmp in Hi.
Qed.

(** A head token that is no key of the IET mapper changes nothing in the
    IET stage. *)
Lemma Custom_specialize_iet_skip (graph : Graph) (kw : Kwargs) (i : string)
  (st : State) :
  (∀ mpi, iet_passes_dict kw mpi !! i = None) →
  Custom_specialize_iet graph (with_mode kw (i :: mode kw)) st
  = Custom_specialize_iet graph kw st.
Proof.
  intros Hi. destruct (options kw !! "mpi") as [mpi|] eqn:Hm.
  - rewrite (Custom_specialize_iet_loop graph kw mpi st Hm).
    rewrite (Custom_specialize_iet_loop graph (with_mode kw (i :: mode kw))
               mpi st Hm).
    change (iet_passes_dict (with_mode kw (i :: mode kw)) mpi)
      with (iet_passes_dict kw mpi).
    unfold force_call, mbind, M_bind, bind.
    change (mode (with_mode kw (i :: mode kw))) with (i :: mode kw).
    change (options (with_mode kw (i :: mode kw))) with (options kw).
    rewrite (iet_loop_skip _ _ _ _ _ (Hi mpi)).
    rewrite (iet_passes_dict_keys_mpi_openmp kw mpi i "mpi") by auto.
    rewrite (iet_passes_dict_keys_mpi_openmp kw mpi i "openmp") by auto.
    reflexivity.
  - unfold Custom_specialize_iet, _make_iet_passes_mapper, getitem. simpl.
    unfold mbind, M_bind, bind, lift. by rewrite Hm.
Qed.

Lemma co_lift {A} (P : event → Prop) (r : Res A) : calls_only P (lift r).
Proof. apply emits_lift. constructor. Qed.

Lemma co_call_iet (P : event → Prop) (p : iet_pass) (graph : Graph) :
  P (IetPass p) → calls_only P (call_iet p graph).
Proof. intros H. apply emits_call_iet. intros _. by repeat constructor. Qed.

Lemma co_when (P : event → Prop) (c : bool) (body : M unit) :
  calls_only P body → calls_only P (when c body).
Proof. intros H. destruct c; [done|apply co_ret]. Qed.

Lemma co_force_call (name : string) (p : iet_pass) (kw : Kwargs)
  (mpi : pyval) (graph : Graph) :
  iet_passes_dict kw mpi !! name = Some (call_iet p) →
  forced_or_placement (IetPass p) →
  calls_only forced_or_placement
    (force_call name (iet_passes_dict kw mpi) kw graph).
Proof.
  intros Hp HP. unfold force_call. case_bool_decide; [apply co_ret|].
  apply co_bind; [apply co_lift|]. intros opt. apply co_when.
  unfold mapper_call. rewrite Hp. by apply co_call_iet.
Qed.

(** What follows the loop in the IET stage calls only [mpiize],
    [make_parallel] and the two placement passes. *)
Lemma custom_iet_tail_calls (kw : Kwargs) (mpi : pyval) (graph : Graph) :
  calls_only forced_or_placement
    (force_call "mpi" (iet_passes_dict kw mpi) kw graph;;
     force_call "openmp" (iet_passes_dict kw mpi) kw graph;;
     symbol_definitions graph;;
     mret graph).
Proof.
  apply co_bind;
    [by apply co_force_call with (mpiize mpi); [apply iet_passes_dict_mpi|]|].
  intros _. apply co_bind;
    [by apply co_force_call with make_parallel;
       [apply iet_passes_dict_openmp|]|].
  intros _. apply co_bind; [|intros _; apply co_ret].
  unfold symbol_definitions.
  apply co_bind; [|intros _]; by apply co_call_iet.
Qed.

End CustomStages.

(** C4: for a [mode] within the vocabulary, both stages of the custom
    operator go through the tokens from first to last. The cluster stage
    is the loop over [mode] on the cluster mapper; the IET stage, once
    [options['mpi']] has been read to build its mapper, is the loop over
    [mode] on that mapper, followed by the forced calls and the symbol
    definitions. In either stage a head token that is not a key of the
    stage's mapper is skipped: the stage is the stage of the remaining
    mode, on the same clusters (or graph) from the same state, with
    nothing called and nothing raised; a [mode] made of such tokens only
    gives the clusters back as they came. A head token that is a key has
    its function called first, on the running clusters (or the graph),
    and the stage goes on with the remaining tokens, in the cluster
    stage on the clusters the function returned. With passes that
    return, each stage returns and has called the passes of its tokens
    in the order of [mode], those of a skipped token being none (and
    then, in the IET stage, the forced passes and the placement). No
    token of the mode is skipped by both stages. *)
Theorem custom_stages_follow_mode `{L : PassLibrary} (kw : Kwargs) :
  (∀ i, i ∈ mode kw → i ∈ _known_passes) →
  let cm := _make_clusters_passes_mapper kw in
  (∀ i mpi, i ∈ mode kw →
            is_Some (cm !! i) ∨ is_Some (iet_passes_dict kw mpi !! i)) ∧
  (∀ clusters st,
     Custom_specialize_clusters clusters kw st
     = clusters_loop cm (mode kw) clusters st) ∧
  (∀ i passes clusters st,
     cm !! i = None →
     clusters_loop cm (i :: passes) clusters st
     = clusters_loop cm passes clusters st) ∧
  (∀ i f passes clusters clusters' st st',
     cm !! i = Some f → f clusters st = (Ok clusters', st') →
     clusters_loop cm (i :: passes) clusters st
     = clusters_loop cm passes clusters' st') ∧
  ((∀ i, i ∈ mode kw → cm !! i = None) →
   ∀ clusters st,
     Custom_specialize_clusters clusters kw st = (Ok clusters, st)) ∧
  (∀ mpi i passes graph st,
     iet_passes_dict kw mpi !! i = None →
     iet_loop (iet_passes_dict kw mpi) (i :: passes) graph st
     = iet_loop (iet_passes_dict kw mpi) passes graph st) ∧
  (∀ mpi i f passes graph st st',
     iet_passes_dict kw mpi !! i = Some f → f graph st = (Ok tt, st') →
     iet_loop (iet_passes_dict kw mpi) (i :: passes) graph st
     = iet_loop (iet_passes_dict kw mpi) passes graph st') ∧
  (passes_return L →
   ∀ clusters st, ∃ clusters' st',
     Custom_specialize_clusters clusters kw st = (Ok clusters', st') ∧
     called st'
     = called st ++ mode_calls (clusters_stage_calls kw) (mode kw)) ∧
  (passes_return L →
   ∀ mpi graph st, ∃ st',
     iet_loop (iet_passes_dict kw mpi) (mode kw) graph st = (Ok tt, st') ∧
     called st'
     = called st ++ mode_calls (iet_stage_calls kw mpi) (mode kw)) ∧
  (∀ mpi graph st,
     options kw !! "mpi" = Some mpi →
     _make_iet_passes_mapper kw st = (Ok (iet_passes_dict kw mpi), st) ∧
     Custom_specialize_iet graph kw st
     = (iet_loop (iet_passes_dict kw mpi) (mode kw) graph;;
        force_call "mpi" (iet_passes_dict kw mpi) kw graph;;
        force_call "openmp" (iet_passes_dict kw mpi) kw graph;;
        symbol_definitions graph;;
        mret graph) st) ∧
  (∀ i clusters st,
     cm !! i = None →
     Custom_specialize_clusters clusters (with_mode kw (i :: mode kw)) st
     = Custom_specialize_clusters clusters kw st) ∧
  (∀ i f clusters clusters' st st',
     cm !! i = Some f → f clusters st = (Ok clusters', st') →
     Custom_specialize_clusters clusters (with_mode kw (i :: mode kw)) st
     = Custom_specialize_clusters clusters' kw st') ∧
  (∀ i graph st,
     (∀ mpi, iet_passes_dict kw mpi !! i = None) →
     Custom_specialize_iet graph (with_mode kw (i :: mode kw)) st
     = Custom_specialize_iet graph kw st) ∧
  (∀ mpi i f graph st st',
     options kw !! "mpi" = Some mpi →
     iet_passes_dict kw mpi !! i = Some f → f graph st = (Ok tt, st') →
     Custom_specialize_iet graph (with_mode kw (i :: mode kw)) st
     = (iet_loop (iet_passes_dict kw mpi) (mode kw) graph;;
        force_call "mpi" (iet_passes_dict kw mpi)
          (with_mode kw (i :: mode kw)) graph;;
        force_call "openmp" (iet_passes_dict kw mpi)
          (with_mode kw (i :: mode kw)) graph;;
        symbol_definitions graph;;
        mret graph) st') ∧
  (passes_return L →
   ∀ mpi openmp graph st,
     options kw !! "mpi" = Some mpi →
     options kw !! "openmp" = Some openmp →
     ∃ st',
       Custom_specialize_iet graph kw st = (Ok graph, st') ∧
       called st'
       = called st ++ mode_calls (iet_stage_calls kw mpi) (mode kw)
         ++ (IetPass <$> forced_passes kw mpi openmp)
         ++ (IetPass <$> symbol_placement)).
Proof.
  intros Hvalid cm. split_and!.
  - intros i mpi Hi.
    destruct (known_pass_stage i (Hvalid i Hi)) as [H|H]; [left|right].
    + by apply clusters_mapper_keys.
    + by apply iet_mapper_keys.
  - done.
  - intros. by apply clusters_loop_skip.
  - intros. by eapply clusters_loop_call.
  - intros Hnone clusters st. unfold Custom_specialize_clusters.
    fold cm. clear Hvalid. induction (mode kw) as [|i passes IH]; [done|].
    rewrite clusters_loop_skip.
    + apply IH. intros j Hj. apply Hnone. by right.
    + apply Hnone. by left.
  - intros. by apply iet_loop_skip.
  - intros. by eapply iet_loop_call.
  - intros HR clusters st.
    by apply clusters_loop_calls, clusters_mapper_calls.
  - intros HR mpi graph st.
    by apply iet_loop_calls, iet_mapper_calls.
  - intros mpi graph st Hm. split.
    + by apply make_iet_passes_mapper_eq.
    + by apply Custom_specialize_iet_loop.
  - intros i clusters st Hi. unfold Custom_specialize_clusters.
    change (_make_clusters_passes_mapper (with_mode kw (i :: mode kw)))
      with cm.
    by apply clusters_loop_skip.
  - intros i f clusters clusters' st st' Hi Hf.
    unfold Custom_specialize_clusters.
    change (_make_clusters_passes_mapper (with_mode kw (i :: mode kw)))
      with cm.
    by apply clusters_loop_call with f.
  - intros i graph st Hi. by apply Custom_specialize_iet_skip.
  - intros mpi i f graph st st' Hm Hi Hf.
    rewrite (Custom_specialize_iet_loop graph (with_mode kw (i :: mode kw))
               mpi st Hm).
    change (iet_passes_dict (with_mode kw (i :: mode kw)) mpi)
      with (iet_passes_dict kw mpi).
    unfold mbind, M_bind, bind.
    change (mode (with_mode kw (i :: mode kw))) with (i :: mode kw).
    by rewrite (iet_loop_call _ _ _ _ _ _ _ Hi Hf).
  - intros HR mpi openmp graph st Hm Ho.
    rewrite (Custom_specialize_iet_eq graph kw mpi openmp st Hm Ho).
    destruct (iet_loop_calls (iet_passes_dict kw mpi)
                (iet_stage_calls kw mpi) (mode kw) graph st
                (iet_mapper_calls kw mpi HR)) as (st1 & E1 & C1).
    destruct (run_iet_pipeline_returns
                (forced_passes kw mpi openmp ++ symbol_placement)
                graph st1 HR) as (st2 & E2 & C2).
    exists st2. unfold mbind, M_bind, bind. rewrite E1, E2.
    split; [done|]. by rewrite C2, C1, fmap_app, <- !app_assoc.
Qed.

Lemma custom_stages_follow_mode_witness :
  ∃ clusters' st1 st2,
    @Custom_specialize_clusters recording_lib []
      (kwargs_of ["cse"; "openmp"; "fuse"] default_options)
      (@initial recording_lib [])
    = (Ok clusters', st1) ∧
    called st1 = [ClusterPass cse; ClusterPass (fuse false)] ∧
    @Custom_specialize_iet recording_lib tt
      (kwargs_of ["cse"; "openmp"; "fuse"] default_options)
      (@initial recording_lib [])
    = (Ok tt, st2) ∧
    called st2 = [IetPass make_parallel;
                  IetPass place_definitions; IetPass place_casts].
Proof.
  destruct (@custom_stages_follow_mode recording_lib
              (kwargs_of ["cse"; "openmp"; "fuse"] default_options))
    as (_ & _ & _ & _ & _ & _ & _ & Hc & _ & _ & _ & _ & _ & _ & Hi).
  - intros i Hi. simpl in Hi.
    repeat (apply elem_of_cons in Hi as [->|Hi];
            [by apply (bool_decide_unpack (_ ∈ _))|]).
    by apply elem_of_nil in Hi.
  - destruct (Hc recording_lib_returns [] (@initial recording_lib []))
      as (clusters' & st1 & E1 & C1).
    destruct (Hi recording_lib_returns (PyBool false) (PyBool false) tt
                (@initial recording_lib [])) as (st2 & E2 & C2);
      [reflexivity..|].
    by exists clusters', st1, st2.
Defined.

(** ** The token 'blocking' *)

Lemma filter_none (P : event → bool) (l : list event) :
  Forall (λ e, P e = false) l → count_calls P l = 0.
Proof.
  unfold count_calls. induction 1 as [|e l He Hl IH]; [done|].
  rewrite filter_cons_False; [done|]. by rewrite He.
Qed.

Lemma count_calls_app (P : event → bool) (l1 l2 : list event) :
  count_calls P (l1 ++ l2) = count_calls P l1 + count_calls P l2.
Proof. unfold count_calls. by rewrite filter_app, length_app. Qed.

(** When one token alone stands for one call that satisfies [P], the
    calls of a mode hold as many such calls as the mode holds the
    token. *)
Lemma mode_calls_count (calls : gmap string (list event)) (P : event → bool)
  (tok : string) (e : event) (passes : list string) :
  calls !! tok = Some [e] → P e = true →
  (∀ i l, i ≠ tok → calls !! i = Some l → Forall (λ e, P e = false) l) →
  count_calls P (mode_calls calls passes) = occurrences tok passes.
Proof.
  intros Htok He Hother. unfold mode_calls, occurrences.
  induction passes as [|i passes IH]; [done|].
  rewrite fmap_cons. simpl concat. rewrite count_calls_app, IH.
  destruct (decide (i = tok)) as [->|Hne].
  - rewrite Htok. simpl. rewrite filter_cons_True by done.
    unfold count_calls. by rewrite filter_cons_True, filter_nil by done.
  - rewrite filter_cons_False by done.
    destruct (calls !! i) as [l|] eqn:E; simpl.
    + by rewrite (filter_none P l (Hother i l Hne E)).
    + done.
Qed.

Lemma clusters_stage_calls_blocking (kw : Kwargs) :
  clusters_stage_calls kw !! "blocking"
  = Some [ClusterPass (Blocking_process (options kw))] ∧
  ∀ i l, i ≠ "blocking" → clusters_stage_calls kw !! i = Some l →
         Forall (λ e, is_blocking e = false) l.
Proof.
  unfold clusters_stage_calls. simpl. split; [by simplify_map_eq|].
  intros i l Hne H.
  repeat (rewrite lookup_insert in H; case_decide;
          [first [congruence|injection H as <-; by repeat constructor]|]).
  by rewrite lookup_empty in H.
Qed.

Lemma iet_stage_calls_blocking (kw : Kwargs) (mpi : pyval) :
  iet_stage_calls kw mpi !! "blocking" = Some [IetPass relax_incr_dimensions] ∧
  ∀ i l, i ≠ "blocking" → iet_stage_calls kw mpi !! i = Some l →
         Forall (λ e, is_relax_incr_dimensions e = false) l.
Proof.
  unfold iet_stage_calls. simpl. split; [by simplify_map_eq|].
  intros i l Hne H.
  repeat (rewrite lookup_insert in H; case_decide;
          [first [congruence|injection H as <-; by repeat constructor]|]).
  by rewrite lookup_empty in H.
Qed.

Lemma forced_passes_no_relax (kw : Kwargs) (mpi openmp : pyval) :
  count_calls is_relax_incr_dimensions
    ((IetPass <$> forced_passes kw mpi openmp)
     ++ (IetPass <$> symbol_placement)) = 0.
Proof.
  unfold forced_passes.
  by destruct (forced "mpi" kw mpi), (forced "openmp" kw openmp).
Qed.

(** C10: in a build whose options hold [mpi], the mapper
    [_make_iet_passes_mapper] returns and the mapper of the cluster
    stage share the key 'blocking' and no other. In the first it stands
    for [relax_incr_dimensions], in the second for
    [Blocking(options).process]; every other token of the vocabulary is
    a key of exactly one of the two. So a build whose mode is 'blocking'
    alone calls, for any pass library, [Blocking(options).process] and
    nothing else in [_specialize_clusters], and in [_specialize_iet]
    [relax_incr_dimensions] first, once, before the forced passes and
    the placement. For any mode, with passes that return, the cluster
    stage calls the blocking pass, and the IET stage
    [relax_incr_dimensions], as many times as 'blocking' occurs in the
    mode: one occurrence, one call of each. *)
Theorem blocking_is_in_both_mappers `{L : PassLibrary} (kw : Kwargs)
  (mpi : pyval) (st : State) :
  options kw !! "mpi" = Some mpi →
  let cm := _make_clusters_passes_mapper kw in
  ∃ im,
    _make_iet_passes_mapper kw st = (Ok im, st) ∧
    (∀ i, is_Some (cm !! i) ∧ is_Some (im !! i) ↔ i = "blocking") ∧
    cm !! "blocking" = Some (call_cluster (Blocking_process (options kw))) ∧
    im !! "blocking" = Some (call_iet relax_incr_dimensions) ∧
    (∀ clusters st1,
       called (clusters_loop cm ["blocking"] clusters st1).2
       = called st1 ++ [ClusterPass (Blocking_process (options kw))]) ∧
    (∀ graph st2,
       called (iet_loop im ["blocking"] graph st2).2
       = called st2 ++ [IetPass relax_incr_dimensions]) ∧
    (∀ i, i ∈ _known_passes → i ≠ "blocking" →
          (is_Some (cm !! i) ∧ im !! i = None) ∨
          (cm !! i = None ∧ is_Some (im !! i))) ∧
    (mode kw = ["blocking"] →
     ∀ clusters graph st1 st2,
       called (Custom_specialize_clusters clusters kw st1).2
       = called st1 ++ [ClusterPass (Blocking_process (options kw))] ∧
       ∃ l,
         called (Custom_specialize_iet graph kw st2).2
         = called st2 ++ IetPass relax_incr_dimensions :: l ∧
         Forall forced_or_placement l) ∧
    (passes_return L →
     ∀ openmp clusters graph st1 st2,
       options kw !! "openmp" = Some openmp →
       ∃ clusters' st1' st2' lc li,
         Custom_specialize_clusters clusters kw st1 = (Ok clusters', st1') ∧
         called st1' = called st1 ++ lc ∧
         Custom_specialize_iet graph kw st2 = (Ok graph, st2') ∧
         called st2' = called st2 ++ li ∧
         count_calls is_blocking lc = occurrences "blocking" (mode kw) ∧
         count_calls is_relax_incr_dimensions li
         = occurrences "blocking" (mode kw)).
Proof.
  intros Hm cm. exists (iet_passes_dict kw mpi).
  set (im := iet_passes_dict kw mpi).
  assert (Ec : cm !! "blocking"
               = Some (call_cluster (Blocking_process (options kw)))).
  { unfold cm, _make_clusters_passes_mapper. simpl. by simplify_map_eq. }
  assert (Ei : im !! "blocking" = Some (call_iet relax_incr_dimensions)).
  { unfold im, iet_passes_dict. simpl. by simplify_map_eq. }
  assert (Hcl : ∀ clusters st1,
             called (clusters_loop cm ["blocking"] clusters st1).2
             = called st1 ++ [ClusterPass (Blocking_process (options kw))]).
  { intros clusters st1. simpl.
    unfold mbind, M_bind, bind, try_except_KeyError, mapper_call.
    rewrite Ec. unfold call_cluster.
    by destruct (cluster_lib _ clusters (world st1)) as [[c|[]] w]. }
  split_and!; [by apply make_iet_passes_mapper_eq| |done|done|done| | | |].
  - intros i. unfold cm, im.
    by rewrite clusters_mapper_keys, iet_mapper_keys, both_stages_blocking.
  - intros graph st2. simpl.
    unfold mbind, M_bind, bind, try_except_KeyError, mapper_call.
    rewrite Ei. unfold call_iet.
    by destruct (iet_lib _ graph (world st2)) as [[c|[]] w].
  - intros i Hk Hb.
    assert (Hn : ¬ (i ∈ clusters_stage_tokens ∧ i ∈ iet_stage_tokens))
      by by rewrite both_stages_blocking.
    destruct (known_pass_stage i Hk) as [H|H]; [left|right].
    + split; [by apply clusters_mapper_keys|].
      apply eq_None_not_Some. intros H'%iet_mapper_keys. by apply Hn.
    + split; [|by apply iet_mapper_keys].
      apply eq_None_not_Some. intros H'%clusters_mapper_keys. by apply Hn.
  - intros Hmode clusters graph st1 st2. split.
    + unfold Custom_specialize_clusters. rewrite Hmode. apply Hcl.
    + rewrite (Custom_specialize_iet_loop graph kw mpi st2 Hm).
      fold im. rewrite Hmode.
      set (after_loop := (force_call "mpi" im kw graph;;
                    force_call "openmp" im kw graph;;
                    symbol_definitions graph;; mret graph)).
      assert (Ht : calls_only forced_or_placement after_loop)
        by apply custom_iet_tail_calls.
      simpl. unfold mbind, M_bind, bind, try_except_KeyError, mapper_call.
      rewrite Ei. unfold call_iet.
      destruct (iet_lib relax_incr_dimensions graph (world st2))
        as [[[]|[]] w]; simpl.
      2,4: by exists [].
      all: match goal with
           | |- context [snd (?t ?s)] =>
               destruct (Ht s) as (l & El & Hl); exists l
           end.
      all: split; [|done].
      all: rewrite El; simpl; by rewrite <- app_assoc.
  - intros HR openmp clusters graph st1 st2 Ho.
    destruct (clusters_loop_calls cm (clusters_stage_calls kw) (mode kw)
                clusters st1 (clusters_mapper_calls kw HR))
      as (clusters' & st1' & E1 & C1).
    rewrite (Custom_specialize_iet_eq graph kw mpi openmp st2 Hm Ho).
    destruct (iet_loop_calls im (iet_stage_calls kw mpi) (mode kw) graph st2
                (iet_mapper_calls kw mpi HR)) as (st2a & E2 & C2).
    destruct (run_iet_pipeline_returns
                (forced_passes kw mpi openmp ++ symbol_placement)
                graph st2a HR) as (st2' & E3 & C3).
    exists clusters', st1', st2',
      (mode_calls (clusters_stage_calls kw) (mode kw)),
      (mode_calls (iet_stage_calls kw mpi) (mode kw)
       ++ (IetPass <$> forced_passes kw mpi openmp)
       ++ (IetPass <$> symbol_placement)).
    split_and!; [done|done| | | |].
    + unfold mbind, M_bind, bind. fold im. by rewrite E2, E3.
    + by rewrite C3, C2, fmap_app, <- !app_assoc.
    + destruct (clusters_stage_calls_blocking kw) as [Hb Hnb].
      by apply mode_calls_count
        with (ClusterPass (Blocking_process (options kw))).
    + destruct (iet_stage_calls_blocking kw mpi) as [Hb Hnb].
      rewrite count_calls_app, forced_passes_no_relax, Nat.add_0_r.
      by apply mode_calls_count with (IetPass relax_incr_dimensions).
Qed.

Lemma blocking_is_in_both_mappers_witness :
  ∃ st1 st2,
    called (@Custom_specialize_clusters recording_lib []
              (kwargs_of ["blocking"] default_options)
              (@initial recording_lib [])).2
    = [ClusterPass (Blocking_process default_options)] ∧
    (@Custom_specialize_clusters recording_lib []
       (kwargs_of ["blocking"] default_options)
       (@initial recording_lib [])).2 = st1 ∧
    @Custom_specialize_iet recording_lib tt
      (kwargs_of ["blocking"] default_options) st1
    = (Ok tt, st2) ∧
    called st2 = [ClusterPass (Blocking_process default_options);
                  IetPass relax_incr_dimensions;
                  IetPass place_definitions; IetPass place_casts].
Proof.
  destruct (@blocking_is_in_both_mappers recording_lib
              (kwargs_of ["blocking"] default_options) (PyBool false)
              (@initial recording_lib []))
    as (im & _ & _ & _ & _ & _ & _ & _ & Hone & _); [reflexivity|].
  destruct (Hone eq_refl [] tt (@initial recording_lib [])
              (@initial recording_lib [])) as [Hc _].
  eexists _, _. split; [exact Hc|]. split; [reflexivity|].
  split; reflexivity.
Defined.
